(** * pr-jira-checker-action: a shallow embedding of [src/index.js]

    The action reads the commits of a pull request, extracts ticket
    identifiers with a configurable regular expression, fetches each ticket
    from the issue tracker, groups the tickets by their Story parent, lists
    the children of those Stories that no commit mentions, and replaces the
    pull-request description with a Markdown report.

    Everything the script touches outside its own process (the action
    inputs, the pull-request context, the two tracker endpoints, the order in
    which concurrent responses arrive) is gathered in a [World] record; the
    script itself becomes a function from a world to the trace of its
    externally visible effects.

    Conventions of the embedding:
    - a trace lists the effects up to the moment the promise of [run]
      settles; continuations of requests still pending after a rejection
      are not followed;
    - [github.getOctokit] and [context.repo] are taken to succeed; the
      responses of the tracker are read at the types the script expects, a
      body that does not have them counting as a read that throws;
    - the regular-expression engine is a parameter. *)

From Stdlib Require Import Ascii Permutation.
From stdpp Require Import gmap strings list.

(** ** Strings *)

(** The line feed of the template literals. *)
Definition nl : string := String "010"%char "".

(** ** Promises: outcomes and the effect monad *)

(** A settled promise: fulfilled with a value, or rejected with an error of
    which the script only ever reads [error.message]. *)
Inductive Outcome (A : Type) : Type :=
| Resolved (a : A)
| Rejected (message : string).
Arguments Resolved {A} a.
Arguments Rejected {A} message.

(** The externally visible effects of a run. *)
Inductive Event : Type :=
| ListCommits (pull_number : nat)          (* octokit.rest.pulls.listCommits *)
| Fetch (url : string)                     (* fetch(url, {headers}) *)
| Warn (msg : string)                      (* console.warn *)
| Notice (msg : string)                    (* core.notice *)
| SetFailed (msg : string)                 (* core.setFailed *)
| UpdatePR (pull_number : nat) (body : string). (* octokit.rest.pulls.update *)

(** A computation that emits events and then settles. *)
Definition M (A : Type) : Type := (list Event * Outcome A)%type.

Definition ret {A} (a : A) : M A := ([], Resolved a).
Definition throw {A} (message : string) : M A := ([], Rejected message).
Definition emit (e : Event) : M unit := ([e], Resolved tt).
Definition bind {A B} (m : M A) (f : A → M B) : M B :=
  match m with
  | (t, Resolved a) => let '(t', r) := f a in (t ++ t', r)
  | (t, Rejected msg) => (t, Rejected msg)
  end.
Definition liftOutcome {A} (o : Outcome A) : M A := ([], o).

Notation "'do' x ← m ; k" := (bind m (λ x, k))
  (at level 10, x name, m at level 100, k at level 200,
   format "'[v' 'do'  x  ←  m ; '/' k ']'").

(** Settling a list of computations one after the other; the first rejection
    ends the sequence. *)
Fixpoint sequenceM {A} (cs : list (M A)) : M (list A) :=
  match cs with
  | [] => ret []
  | c :: cs' => do a ← c; do r ← sequenceM cs'; ret (a :: r)
  end.

(** The same for outcomes alone. *)
Fixpoint sequenceO {A} (os : list (Outcome A)) : Outcome (list A) :=
  match os with
  | [] => Resolved []
  | Resolved a :: os' =>
      match sequenceO os' with
      | Resolved r => Resolved (a :: r)
      | Rejected msg => Rejected msg
      end
  | Rejected msg :: _ => Rejected msg
  end.

(** An [async] function call: the events of its synchronous prefix (the
    request it issues before its first [await]) and what happens when the
    response arrives. *)
Record Async (A : Type) : Type := mkAsync {
  issued : list Event;
  settled : M A
}.
Arguments mkAsync {A} issued settled.
Arguments issued {A} a.
Arguments settled {A} a.

(** [keys.map(task)] awaited jointly: every call is started in array order,
    then the continuations run in the order [arrival keys] in which the
    responses come back, up to the first rejection. The values are listed in
    that order of settlement. *)
Definition settleAll {A} (arrival : list string → list string)
    (keys : list string) (task : string → Async A) : M (list A) :=
  do _ ← (mjoin ((λ k, issued (task k)) <$> keys), Resolved tt);
  sequenceM ((λ k, settled (task k)) <$> arrival keys).

(** [Promise.all(keys.map(task))]: as above, with the results delivered in
    array order. *)
Definition Promise_all {A} (arrival : list string → list string)
    (keys : list string) (task : string → Async A) : M (list A) :=
  do _ ← settleAll arrival keys task;
  liftOutcome (sequenceO ((λ k, (settled (task k)).2) <$> keys)).

(** ** The regular-expression engine *)

(** [new RegExp(pattern, flags)] either throws a SyntaxError or yields a
    matcher; [message.match(regex)] with a global matcher yields [null] or
    the array of all matched substrings. *)
Class RegexEngine : Type := {
  RegExp : Type;
  new_RegExp : string → string → Outcome RegExp;
  String_match : string → RegExp → option (list string)
}.

(** ** [Set] and [Map] with insertion order *)

(** [new Set(xs)] keeps the first occurrence of each element, in order. *)
Definition Set_has (s : list string) (x : string) : bool :=
  bool_decide (x ∈ s).
Definition Set_add (s : list string) (x : string) : list string :=
  if Set_has s x then s else s ++ [x].
Definition new_Set (xs : list string) : list string :=
  fold_left Set_add xs [].

(** [new Map()] as the list of its entries in insertion order. *)
Definition Map_has {V} (m : list (string * V)) (k : string) : bool :=
  bool_decide (k ∈ m.*1).

Fixpoint Map_get {V} (m : list (string * V)) (k : string) : option V :=
  match m with
  | [] => None
  | (k', v) :: m' => if decide (k' = k) then Some v else Map_get m' k
  end.

(** [m.set(k, v)]: a new key goes to the end, an old one keeps its place. *)
Fixpoint Map_set {V} (m : list (string * V)) (k : string) (v : V)
    : list (string * V) :=
  match m with
  | [] => [(k, v)]
  | (k', v') :: m' =>
      if decide (k' = k) then (k, v) :: m' else (k', v') :: Map_set m' k v
  end.

(** Mutation of the object stored under [k], as in [m.get(k).f.push(x)]. *)
Fixpoint Map_mutate {V} (m : list (string * V)) (k : string) (f : V → V)
    : list (string * V) :=
  match m with
  | [] => []
  | (k', v) :: m' =>
      if decide (k' = k) then (k', f v) :: m' else (k', v) :: Map_mutate m' k f
  end.

Definition Map_keys {V} (m : list (string * V)) : list string := m.*1.

(** ** Ticket extraction ([run], the [ticketIds] expression) *)

Section Extraction.
Context {engine : RegexEngine}.

(** The callback of [commits.map]. *)
Definition matchesOf (jiraTicketPattern message : string)
    : Outcome (list string) :=
  match new_RegExp jiraTicketPattern "g" with
  | Rejected msg => Rejected msg
  | Resolved regex =>
      match String_match message regex with
      | Some matches => Resolved matches
      | None => Resolved []
      end
  end.

(** [[...new Set(commits.map(...).flat())]] *)
Definition ticketIdsOf (jiraTicketPattern : string) (commits : list string)
    : Outcome (list string) :=
  match sequenceO (matchesOf jiraTicketPattern <$> commits) with
  | Rejected msg => Rejected msg
  | Resolved arrays => Resolved (new_Set (mjoin arrays))
  end.

(** The extractor as the specification words it: the union, over the
    messages, of the set of global matches of the pattern in each message. *)
Definition specIdentifierSet (regex : RegExp) (messages : list string)
    : gset string :=
  ⋃ ((λ message, list_to_set (default [] (String_match message regex)))
       <$> messages).
End Extraction.

(** ** Data model *)

(** [result.parent] *)
Record ParentRef : Type := {
  story_key : string;
  story_type : string;
  story_title : string
}.

(** The objects built by [getJiraIssueInfo] and [getStoryChildren]. *)
Record Issue : Type := {
  key : string;
  type : string;
  title : string;
  parent : option ParentRef
}.

(** An entry of [storyMap]. *)
Record Group : Type := {
  story : ParentRef;
  children : list Issue
}.

Global Instance ParentRef_eq_dec : EqDecision ParentRef.
Proof. solve_decision. Defined.
Global Instance Issue_eq_dec : EqDecision Issue.
Proof. solve_decision. Defined.

(** ** The tracker and the rest of the outside world *)

(** The fields the script reads from [data.fields.parent]. *)
Record ParentFields : Type := {
  parent_key : string;                (* data.fields.parent.key *)
  parent_issuetype_name : string;     (* data.fields.parent.fields.issuetype.name *)
  parent_summary : string             (* data.fields.parent.fields.summary *)
}.

(** The fields the script reads from the body of an issue lookup. *)
Record IssueFields : Type := {
  issuetype_name : string;            (* data.fields.issuetype.name *)
  summary : string;                   (* data.fields.summary *)
  fields_parent : option ParentFields (* data.fields.parent, when truthy *)
}.

(** One element of [data.issues] in the body of a search. *)
Record SearchHit : Type := {
  hit_key : string;                   (* issue.key *)
  hit_issuetype_name : string;        (* issue.fields.issuetype.name *)
  hit_summary : string                (* issue.fields.summary *)
}.

(** What [await fetch(...)] followed by [await response.json()] and the
    field reads can do: [fetch] itself rejects (the tracker cannot be
    reached); the response arrives with [response.ok] false; or it arrives
    with [response.ok] true, and then reading the body either yields the
    fields or throws (a body that is not JSON, a missing field). *)
Inductive Response (B : Type) : Type :=
| FetchError (message : string)
| NonSuccess
| Success (json : Outcome B).
Arguments FetchError {B} message.
Arguments NonSuccess {B}.
Arguments Success {B} json.

Record World : Type := {
  (** [core.getInput(name)], the empty string when the input is not set *)
  getInput : string → string;
  (** [context.payload.pull_request] and, inside it, [number] *)
  pull_request : option (option nat);
  (** the messages of the commits [listCommits] resolves with *)
  listCommits : nat → Outcome (list string);
  (** the tracker's answer to an issue lookup, by issue key *)
  issueResponse : string → Response IssueFields;
  (** the tracker's answer to a search by parent, by parent key *)
  searchResponse : string → Response (list SearchHit);
  (** the order in which the responses to concurrent requests come back *)
  arrival : list string → list string;
  arrival_perm : ∀ keys, arrival keys ≡ₚ keys;
  (** whether [octokit.rest.pulls.update] resolves *)
  updateResult : Outcome unit
}.

(** ** The two tracker calls *)

(** The object [getJiraIssueInfo] builds from the body of a successful
    lookup: [result], with [result.parent] set when the tracker reports a
    parent of type Story. *)
Definition issueOfFields (issueKey : string) (data : IssueFields) : Issue :=
  let result :=
    {| key := issueKey; type := issuetype_name data;
       title := summary data; parent := None |} in
  match fields_parent data with
  | Some p =>
      if decide (parent_issuetype_name p = "Story") then
        {| key := key result; type := type result; title := title result;
           parent := Some {| story_key := parent_key p;
                             story_type := "Story";
                             story_title := parent_summary p |} |}
      else result
  | None => result
  end.

(** The request headers (basic credentials, [Accept]) do not influence what
    the script does with a response; the [email] and [apiToken] parameters
    are kept only for the signatures. *)
Definition getJiraIssueInfo (w : World)
    (issueKey baseUrl email apiToken : string) : Async (option Issue) :=
  mkAsync
    [Fetch (baseUrl +:+ "/rest/api/3/issue/" +:+ issueKey)]
    match issueResponse w issueKey with
    | FetchError msg => throw msg
    | NonSuccess =>
        do _ ← emit (Warn ("Unable to fetch info for " +:+ issueKey));
        ret None
    | Success (Rejected msg) => throw msg
    | Success (Resolved data) => ret (Some (issueOfFields issueKey data))
    end.

Definition childOfHit (issue : SearchHit) : Issue :=
  {| key := hit_key issue; type := hit_issuetype_name issue;
     title := hit_summary issue; parent := None |}.

Definition getStoryChildren (w : World)
    (storyKey baseUrl email apiToken : string) : Async (list Issue) :=
  mkAsync
    [Fetch (baseUrl +:+ "/rest/api/3/search?jql=parent=" +:+ storyKey)]
    match searchResponse w storyKey with
    | FetchError msg => throw msg
    | NonSuccess =>
        do _ ← emit (Warn ("Unable to fetch children for " +:+ storyKey));
        ret []
    | Success (Rejected msg) => throw msg
    | Success (Resolved issues) => ret (childOfHit <$> issues)
    end.

(** ** [generateStructuredOutput] *)

(** [g.children.push(issue)] *)
Definition pushChild (issue : Issue) (g : Group) : Group :=
  {| story := story g; children := children g ++ [issue] |}.

(** The body of [jiraIssuesInfo.forEach], on the pair of [storyMap] and
    [orphanIssues]. *)
Definition groupIssue (acc : list (string * Group) * list Issue)
    (issue : Issue) : list (string * Group) * list Issue :=
  let '(storyMap, orphanIssues) := acc in
  match parent issue with
  | Some p =>
      let parentKey := story_key p in
      let storyMap :=
        if Map_has storyMap parentKey then storyMap
        else Map_set storyMap parentKey {| story := p; children := [] |} in
      (Map_mutate storyMap parentKey (pushChild issue), orphanIssues)
  | None => (storyMap, orphanIssues ++ [issue])
  end.

Definition groupIssues (jiraIssuesInfo : list Issue)
    : list (string * Group) * list Issue :=
  fold_left groupIssue jiraIssuesInfo ([], []).

Definition storyMapOf (jiraIssuesInfo : list Issue) : list (string * Group) :=
  (groupIssues jiraIssuesInfo).1.
Definition orphanIssuesOf (jiraIssuesInfo : list Issue) : list Issue :=
  (groupIssues jiraIssuesInfo).2.

(** The callback of [[...storyMap.keys()].map]: the children of one Story
    that are not among the committed keys. *)
Definition missingChildrenOf (w : World) (committedIssueKeys : list string)
    (baseUrl email apiToken storyKey : string) : Async (list Issue) :=
  let call := getStoryChildren w storyKey baseUrl email apiToken in
  mkAsync (issued call)
    (do children ← settled call;
     ret (filter (λ child, Set_has committedIssueKeys (key child) = false)
            children)).

(** The three collections the report is rendered from. *)
Record Aggregation : Type := {
  storyMap : list (string * Group);
  orphanIssues : list Issue;
  missingChildIssues : list Issue
}.

(** The first half of [generateStructuredOutput]. Each callback pushes its
    [missingChildren] onto the shared [missingChildIssues] when it settles,
    so the list is the concatenation in order of settlement; the array
    [Promise.all] resolves with is not used. *)
Definition aggregate (w : World) (jiraIssuesInfo : list Issue)
    (ticketIds : list string) (baseUrl email apiToken : string)
    : M Aggregation :=
  let '(storyMap, orphanIssues) := groupIssues jiraIssuesInfo in
  let committedIssueKeys := new_Set ticketIds in
  do pushed ← settleAll (arrival w) (Map_keys storyMap)
                (missingChildrenOf w committedIssueKeys baseUrl email apiToken);
  ret {| storyMap := storyMap; orphanIssues := orphanIssues;
         missingChildIssues := mjoin pushed |}.

Definition getJiraLink (baseUrl issueKey : string) : string :=
  "[" +:+ issueKey +:+ "](" +:+ baseUrl +:+ "/browse/" +:+ issueKey +:+ ")".

(** One bullet line, the same template in all three sections. *)
Definition bullet (baseUrl : string) (issue : Issue) : string :=
  "- " +:+ getJiraLink baseUrl (key issue) +:+ ": [" +:+ type issue +:+ "] "
  +:+ title issue +:+ nl.

Definition storyBlock (baseUrl : string) (output : string)
    (entry : string * Group) : string :=
  let data := entry.2 in
  let output :=
    output +:+ ("#### Story " +:+ getJiraLink baseUrl (story_key (story data))
                +:+ ": " +:+ story_title (story data) +:+ nl) in
  let output :=
    fold_left (λ output child, output +:+ bullet baseUrl child)
      (children data) output in
  output +:+ nl.

(** The second half of [generateStructuredOutput]. *)
Definition render (baseUrl : string) (a : Aggregation) : string :=
  let output := "### Related Jira Issues" +:+ nl +:+ nl in
  let output := fold_left (storyBlock baseUrl) (storyMap a) output in
  let output :=
    if bool_decide (0 < length (orphanIssues a)) then
      let output := output +:+ ("#### Other Issues" +:+ nl) in
      let output :=
        fold_left (λ output issue, output +:+ bullet baseUrl issue)
          (orphanIssues a) output in
      output +:+ nl
    else output in
  let output :=
    if bool_decide (0 < length (missingChildIssues a)) then
      let output := output +:+ ("#### Missing Child Issues" +:+ nl) in
      let output :=
        output +:+ ("The following child issues from related Stories are not included in this PR:"
                    +:+ nl +:+ nl) in
      fold_left (λ output issue, output +:+ bullet baseUrl issue)
        (missingChildIssues a) output
    else output in
  output.

Definition generateStructuredOutput (w : World) (jiraIssuesInfo : list Issue)
    (ticketIds : list string) (baseUrl email apiToken : string) : M string :=
  do a ← aggregate w jiraIssuesInfo ticketIds baseUrl email apiToken;
  ret (render baseUrl a).

(** ** [run] *)

(** [core.getInput(name, { required: true })] *)
Definition getRequiredInput (w : World) (name : string) : M string :=
  if decide (getInput w name = "") then
    throw ("Input required and not supplied: " +:+ name)
  else ret (getInput w name).

(** [core.getInput("jira-ticket-id-pattern") || "RC-[^ ]*"] *)
Definition jiraTicketPatternOf (w : World) : string :=
  if decide (getInput w "jira-ticket-id-pattern" = "") then "RC-[^ ]*"
  else getInput w "jira-ticket-id-pattern".

(** [jiraIssuesInfo.filter(Boolean)]: [null] is dropped, objects stay. *)
Definition filter_Boolean (xs : list (option Issue)) : list Issue :=
  omap id xs.

Section Run.
Context {engine : RegexEngine}.

(** The [try] block. *)
Definition runTry (w : World) : M unit :=
  do token ← getRequiredInput w "github-token";
  do jiraBaseUrl ← getRequiredInput w "jira-base-url";
  do jiraEmail ← getRequiredInput w "jira-email";
  do jiraApiToken ← getRequiredInput w "jira-api-token";
  let jiraTicketPattern := jiraTicketPatternOf w in
  match pull_request w with
  | None =>
      emit (SetFailed "This action can only be run on pull request events")
  | Some None | Some (Some 0) =>
      emit (SetFailed "Could not get pull request number from context")
  | Some (Some prNumber) =>
      do _ ← emit (ListCommits prNumber);
      do commits ← liftOutcome (listCommits w prNumber);
      do ticketIds ← liftOutcome (ticketIdsOf jiraTicketPattern commits);
      if bool_decide (length ticketIds = 0) then
        emit (Notice "No Jira ticket IDs found in commit messages")
      else
        do jiraIssuesInfo ←
          Promise_all (arrival w) ticketIds
            (λ pattern,
               getJiraIssueInfo w pattern jiraBaseUrl jiraEmail jiraApiToken);
        do output ←
          generateStructuredOutput w (filter_Boolean jiraIssuesInfo)
            ticketIds jiraBaseUrl jiraEmail jiraApiToken;
        do _ ← emit (UpdatePR prNumber output);
        liftOutcome (updateResult w)
  end.

(** [try { ... } catch (error) { core.setFailed(error.message) }] *)
Definition run (w : World) : list Event :=
  match runTry w with
  | (t, Resolved _) => t
  | (t, Rejected msg) => t ++ [SetFailed msg]
  end.
End Run.

(** ** A regular-expression engine for a fragment of the pattern language

    The theorems below hold for every engine. To evaluate the script on
    concrete commits, this instance interprets the fragment the default
    pattern [RC-[^ ]*] lives in: literal characters, [.], character classes
    [[...]] and [[^...]] listing their members, and [*] after any of these.
    Patterns using other metacharacters, escapes or ranges are outside the
    fragment; this instance refuses them, whatever a full engine would do
    with them. Only the global flag is interpreted. *)
Module Fragment.

Inductive Atom : Type :=
| Lit (c : ascii)
| AnyChar
| CharClass (negated : bool) (members : list ascii).

(** An atom and whether a [*] follows it. *)
Definition Item : Type := (Atom * bool)%type.

Inductive ParseState : Type :=
| Outside
| ClassStart                                   (* just after "[" *)
| InClass (negated : bool) (members : list ascii).

Definition star (items : list Item) : option (list Item) :=
  match reverse items with
  | (a, false) :: before => Some (reverse ((a, true) :: before))
  | _ => None
  end.

Definition unsupported (c : ascii) : bool :=
  bool_decide (c ∈ ["("; ")"; "+"; "?"; "|"; "^"; "$"; "092"; "{"; "}"]%char).

(** Inside a class: escapes and ranges. *)
Definition unsupportedInClass (c : ascii) : bool :=
  bool_decide (c ∈ ["092"; "-"]%char).

Fixpoint parse (pattern : string) (st : ParseState) (items : list Item)
    (rest : string) : Outcome (list Item) :=
  let invalid reason :=
    Rejected ("Invalid regular expression: /" +:+ pattern +:+ "/: "
              +:+ reason) in
  match rest with
  | "" =>
      match st with
      | Outside => Resolved items
      | _ => invalid "Unterminated character class"
      end
  | String c rest' =>
      match st with
      | Outside =>
          if decide (c = "["%char) then parse pattern ClassStart items rest'
          else if decide (c = "*"%char) then
            match star items with
            | Some items' => parse pattern Outside items' rest'
            | None => invalid "Nothing to repeat"
            end
          else if decide (c = "."%char) then
            parse pattern Outside (items ++ [(AnyChar, false)]) rest'
          else if unsupported c then
            Rejected "pattern outside the interpreted fragment"
          else parse pattern Outside (items ++ [(Lit c, false)]) rest'
      | ClassStart =>
          if decide (c = "^"%char) then parse pattern (InClass true []) items rest'
          else if decide (c = "]"%char) then
            parse pattern Outside (items ++ [(CharClass false [], false)]) rest'
          else if unsupportedInClass c then
            Rejected "pattern outside the interpreted fragment"
          else parse pattern (InClass false [c]) items rest'
      | InClass negated members =>
          if decide (c = "]"%char) then
            parse pattern Outside
              (items ++ [(CharClass negated members, false)]) rest'
          else if unsupportedInClass c then
            Rejected "pattern outside the interpreted fragment"
          else parse pattern (InClass negated (members ++ [c])) items rest'
      end
  end.

Definition accepts (a : Atom) (c : ascii) : bool :=
  match a with
  | Lit c' => bool_decide (c = c')
  | AnyChar => negb (bool_decide (c ∈ ["010"; "013"]%char))
  | CharClass negated members => xorb negated (bool_decide (c ∈ members))
  end.

(** The length of the match of [items] at the start of [s], if there is
    one; [*] is greedy and gives back characters on failure. *)
Fixpoint matchHere (items : list Item) : string → option nat :=
  match items with
  | [] => λ _, Some 0
  | (a, false) :: items' => λ s,
      match s with
      | String c s' =>
          if accepts a c then S <$> matchHere items' s' else None
      | "" => None
      end
  | (a, true) :: items' =>
      fix repeat (s : string) : option nat :=
        match s with
        | String c s' =>
            if accepts a c then
              match repeat s' with
              | Some n => Some (S n)
              | None => matchHere items' s
              end
            else matchHere items' s
        | "" => matchHere items' s
        end
  end.

Fixpoint dropChars (n : nat) (s : string) : string :=
  match n, s with
  | S n', String _ s' => dropChars n' s'
  | _, _ => s
  end.

(** All matches from left to right; after an empty match the scan moves on
    by one character. *)
Fixpoint scan (fuel : nat) (items : list Item) (s : string) : list string :=
  match fuel with
  | 0 => []
  | S fuel' =>
      match matchHere items s with
      | Some (S n) =>
          String.substring 0 (S n) s :: scan fuel' items (dropChars (S n) s)
      | Some 0 =>
          "" :: match s with
                | String _ s' => scan fuel' items s'
                | "" => []
                end
      | None =>
          match s with
          | String _ s' => scan fuel' items s'
          | "" => []
          end
      end
  end.

Definition matchAll (message : string) (items : list Item)
    : option (list string) :=
  match scan (S (String.length message)) items message with
  | [] => None
  | matches => Some matches
  end.

#[export] Instance engine : RegexEngine := {|
  RegExp := list Item;
  new_RegExp pattern _ := parse pattern Outside [] pattern;
  String_match := matchAll
|}.

End Fragment.

(** ** What the tracker reports, read off a world *)

(** A lookup that makes the awaiting function throw: [fetch] rejected, or the
    body of a successful response could not be read. *)
Definition rejects {B} (r : Response B) : bool :=
  match r with
  | FetchError _ | Success (Rejected _) => true
  | NonSuccess | Success (Resolved _) => false
  end.

(** The children the tracker lists under a Story; none when the search is
    not answered with a readable success. *)
Definition childrenReported (w : World) (storyKey : string) : list Issue :=
  match searchResponse w storyKey with
  | Success (Resolved issues) => childOfHit <$> issues
  | _ => []
  end.

(** The issue the tracker knows under a key, if the lookup succeeds. *)
Definition issueReported (w : World) (issueKey : string) : option Issue :=
  match issueResponse w issueKey with
  | Success (Resolved data) => Some (issueOfFields issueKey data)
  | _ => None
  end.

(** ** Reading the grouping *)

(** [issue.parent.key], when [issue.parent] is set. *)
Definition parentKey (issue : Issue) : option string :=
  story_key <$> parent issue.

(** The children stored under a key of [storyMap], none for an absent key. *)
Definition childrenAt (storyMap : list (string * Group)) (k : string)
    : list Issue :=
  from_option children [] (Map_get storyMap k).

(** All children of all groups, group by group. *)
Definition allChildren (storyMap : list (string * Group)) : list Issue :=
  mjoin ((λ entry, children entry.2) <$> storyMap).

(** The warning a lookup answered with a non-success status leaves. *)
Definition lookupWarnings (w : World) (issueKey : string) : list Event :=
  match issueResponse w issueKey with
  | NonSuccess => [Warn ("Unable to fetch info for " +:+ issueKey)]
  | _ => []
  end.

Definition searchWarnings (w : World) (storyKey : string) : list Event :=
  match searchResponse w storyKey with
  | NonSuccess => [Warn ("Unable to fetch children for " +:+ storyKey)]
  | _ => []
  end.

(** ** Runs that get as far as the commit list *)

(** The four required inputs are set, the event is a pull request with a
    usable number, and [listCommits] resolves with [commits]. *)
Definition Started (w : World) (prNumber : nat) (commits : list string)
    : Prop :=
  getInput w "github-token" ≠ ""
  ∧ getInput w "jira-base-url" ≠ ""
  ∧ getInput w "jira-email" ≠ ""
  ∧ getInput w "jira-api-token" ≠ ""
  ∧ pull_request w = Some (Some prNumber)
  ∧ prNumber ≠ 0
  ∧ listCommits w prNumber = Resolved commits.

(** ** The report as the specification lays it out

    A header, one block per group, then the two optional sections, each
    empty when it has no entry. *)

Definition bullets (baseUrl : string) (issues : list Issue) : string :=
  foldr (λ issue text, bullet baseUrl issue +:+ text) "" issues.

Definition storySection (baseUrl : string) (entry : string * Group) : string :=
  "#### Story " +:+ getJiraLink baseUrl (story_key (story entry.2)) +:+ ": "
  +:+ story_title (story entry.2) +:+ nl
  +:+ bullets baseUrl (children entry.2) +:+ nl.

Definition storySections (baseUrl : string)
    (storyMap : list (string * Group)) : string :=
  foldr (λ entry text, storySection baseUrl entry +:+ text) "" storyMap.

Definition otherSection (baseUrl : string) (orphanIssues : list Issue)
    : string :=
  match orphanIssues with
  | [] => ""
  | _ => "#### Other Issues" +:+ nl +:+ bullets baseUrl orphanIssues +:+ nl
  end.

Definition missingSection (baseUrl : string) (missingChildIssues : list Issue)
    : string :=
  match missingChildIssues with
  | [] => ""
  | _ =>
      "#### Missing Child Issues" +:+ nl
      +:+ "The following child issues from related Stories are not included in this PR:"
      +:+ nl +:+ nl +:+ bullets baseUrl missingChildIssues
  end.

Definition specReport (baseUrl : string) (a : Aggregation) : string :=
  "### Related Jira Issues" +:+ nl +:+ nl
  +:+ storySections baseUrl (storyMap a)
  +:+ otherSection baseUrl (orphanIssues a)
  +:+ missingSection baseUrl (missingChildIssues a).

(** ** Concrete worlds *)

Module Sample.

Definition inputs (pattern : string) (name : string) : string :=
  if decide (name = "github-token") then "ghs_token"
  else if decide (name = "jira-base-url") then "https://jira.example"
  else if decide (name = "jira-email") then "dev@example.com"
  else if decide (name = "jira-api-token") then "secret"
  else if decide (name = "jira-ticket-id-pattern") then pattern
  else "".

Definition RC1 : IssueFields :=
  {| issuetype_name := "Task"; summary := "Add login form";
     fields_parent := Some {| parent_key := "RC-10";
                              parent_issuetype_name := "Story";
                              parent_summary := "Login" |} |}.

Definition RC2 : IssueFields :=
  {| issuetype_name := "Bug"; summary := "Fix typo"; fields_parent := None |}.

(** A sub-task whose parent is not a Story. *)
Definition RC4 : IssueFields :=
  {| issuetype_name := "Sub-task"; summary := "Write tests";
     fields_parent := Some {| parent_key := "RC-20";
                              parent_issuetype_name := "Epic";
                              parent_summary := "Quality" |} |}.

Definition hit (k t s : string) : SearchHit :=
  {| hit_key := k; hit_issuetype_name := t; hit_summary := s |}.

(** The tracker: RC-1 under the Story RC-10, RC-2 and RC-4 without a Story
    parent, every other lookup answered with a non-success status; RC-10 has
    the children RC-1, RC-3 and RC-5. *)
Definition issues (issueKey : string) : Response IssueFields :=
  if decide (issueKey = "RC-1") then Success (Resolved RC1)
  else if decide (issueKey = "RC-2") then Success (Resolved RC2)
  else if decide (issueKey = "RC-4") then Success (Resolved RC4)
  else NonSuccess.

Definition searches (storyKey : string) : Response (list SearchHit) :=
  if decide (storyKey = "RC-10") then
    Success (Resolved [hit "RC-1" "Task" "Add login form";
                       hit "RC-3" "Task" "Add logout button";
                       hit "RC-5" "Task" "Remember me"])
  else NonSuccess.

Definition world (pattern : string) (commits : list string)
    (issueResponse : string → Response IssueFields)
    (searchResponse : string → Response (list SearchHit)) : World :=
  {| getInput := inputs pattern;
     pull_request := Some (Some 7);
     listCommits := λ _, Resolved commits;
     issueResponse := issueResponse;
     searchResponse := searchResponse;
     arrival := reverse;
     arrival_perm := reverse_Permutation;
     updateResult := Resolved tt |}.

Definition commits : list string :=
  ["RC-1 fix"; "RC-2 also RC-1"; "RC-5 wip"].

(** The default pattern, three tickets, one of them unknown to the tracker. *)
Definition degraded : World := world "" commits issues searches.

(** The tracker cannot be reached for RC-5. *)
Definition unreachable : World :=
  world "" commits
    (λ k, if decide (k = "RC-5") then
            FetchError "request to https://jira.example/rest/api/3/issue/RC-5 failed, reason: connect ECONNREFUSED"
          else issues k)
    searches.

(** The search for the children of RC-10 cannot be sent. *)
Definition searchUnreachable : World :=
  world "" commits issues
    (λ _, FetchError "request to https://jira.example/rest/api/3/search?jql=parent=RC-10 failed, reason: connect ECONNREFUSED").

(** The search for the children of RC-10 is answered with an error status. *)
Definition searchRefused : World :=
  world "" commits issues (λ _, NonSuccess).

(** A pattern that is not a regular expression, with and without commits. *)
Definition badPattern : World := world "[" commits issues searches.
Definition badPatternNoCommits : World := world "[" [] issues searches.

(** Commits that mention no ticket. *)
Definition noTickets : World :=
  world "" ["Initial commit"; "Bump version"] issues searches.

(** What the default pattern extracts from [commits], and the issues the
    tracker of [degraded] returns for them. *)
Definition ticketIds : list string := ["RC-1"; "RC-2"; "RC-5"].
Definition fetched : list Issue := omap (issueReported degraded) ticketIds.

End Sample.

(** ** Reading a trace *)

(** Traffic with the tracker: a request or the warning about its answer. *)
Definition trackerEvent (e : Event) : Prop :=
  match e with
  | Fetch _ | Warn _ => True
  | _ => False
  end.

Definition isFetch (e : Event) : bool :=
  match e with
  | Fetch _ => true
  | _ => false
  end.

Definition isUpdatePR (e : Event) : bool :=
  match e with
  | UpdatePR _ _ => true
  | _ => false
  end.

Definition isSetFailed (e : Event) : bool :=
  match e with
  | SetFailed _ => true
  | _ => false
  end.

(** The number of requests to the tracker in a trace. *)
Definition fetchCount (t : list Event) : nat :=
  length (filter (λ e, isFetch e) t).

(** The [catch] clause of [run], on any computation. *)
Definition caught (m : M unit) : list Event :=
  match m with
  | (t, Resolved _) => t
  | (t, Rejected msg) => t ++ [SetFailed msg]
  end.

(** The ways a run can go, by the trace it leaves. *)
Inductive RunShape (w : World) : list Event → Prop :=
| ContextFailure msg :
    RunShape w [SetFailed msg]
| NoTickets prNumber :
    RunShape w [ListCommits prNumber;
                Notice "No Jira ticket IDs found in commit messages"]
| Failure prNumber t msg :
    Forall trackerEvent t →
    RunShape w (ListCommits prNumber :: t ++ [SetFailed msg])
| Updated prNumber t body :
    Forall trackerEvent t →
    pull_request w = Some (Some prNumber) → prNumber ≠ 0 →
    RunShape w (ListCommits prNumber :: t ++ [UpdatePR prNumber body])
| UpdateRejected prNumber t body msg :
    Forall trackerEvent t →
    pull_request w = Some (Some prNumber) → prNumber ≠ 0 →
    RunShape w (ListCommits prNumber :: t
                ++ [UpdatePR prNumber body; SetFailed msg]).

(** The required inputs, in the order [run] reads them. *)
Definition requiredInputs : list string :=
  ["github-token"; "jira-base-url"; "jira-email"; "jira-api-token"].

(** The first required input that is not set. *)
Definition firstMissingInput (w : World) : option string :=
  head (filter (λ name, getInput w name = "") requiredInputs).

(** The Story object stored under a key of [storyMap]. *)
Definition storyAt (storyMap : list (string * Group)) (k : string)
    : option ParentRef :=
  story <$> Map_get storyMap k.

(** ** More worlds *)

Module Scenario.


(** The workflow was triggered by a push. *)
Definition pushEvent : World :=
  {| getInput := Sample.inputs "";
     pull_request := None;
     listCommits := λ _, Resolved Sample.commits;
     issueResponse := Sample.issues;
     searchResponse := Sample.searches;
     arrival := id;
     arrival_perm := λ keys, reflexivity keys;
     updateResult := Resolved tt |}.

(** The commits of the pull request cannot be listed. *)
Definition noAccess : World :=
  {| getInput := Sample.inputs "";
     pull_request := Some (Some 7);
     listCommits := λ _, Rejected "Resource not accessible by integration";
     issueResponse := Sample.issues;
     searchResponse := Sample.searches;
     arrival := id;
     arrival_perm := λ keys, reflexivity keys;
     updateResult := Resolved tt |}.

(** The description cannot be written. *)
Definition readOnly : World :=
  {| getInput := Sample.inputs "";
     pull_request := Some (Some 7);
     listCommits := λ _, Resolved Sample.commits;
     issueResponse := Sample.issues;
     searchResponse := Sample.searches;
     arrival := id;
     arrival_perm := λ keys, reflexivity keys;
     updateResult := Rejected "Resource not accessible by integration" |}.

(** As [Sample.degraded], with the responses handled in request order. *)
Definition inOrder : World :=
  {| getInput := Sample.inputs "";
     pull_request := Some (Some 7);
     listCommits := λ _, Resolved Sample.commits;
     issueResponse := Sample.issues;
     searchResponse := Sample.searches;
     arrival := id;
     arrival_perm := λ keys, reflexivity keys;
     updateResult := Resolved tt |}.

(** The tracker lists no child under any Story. *)
Definition childless : World :=
  Sample.world "" Sample.commits Sample.issues (λ _, Success (Resolved [])).

(** Two tickets under RC-10 and one under RC-30, interleaved. *)
Definition under (k t s storyKey storyTitle : string) : Issue :=
  {| key := k; type := t; title := s;
     parent := Some {| story_key := storyKey; story_type := "Story";
                       story_title := storyTitle |} |}.

Definition interleaved : list Issue :=
  [under "RC-1" "Task" "Add login form" "RC-10" "Login";
   under "RC-7" "Task" "Export" "RC-30" "Reports";
   under "RC-8" "Bug" "Login loops" "RC-10" "Login (renamed)"].

End Scenario.

(** * Properties *)

(** ** Insertion-ordered sets *)

Lemma elem_of_fold_Set_add (xs acc : list string) (x : string) :
  x ∈ fold_left Set_add xs acc ↔ x ∈ acc ∨ x ∈ xs.
Proof.
  revert acc. induction xs as [|y xs IH]; intros acc; simpl.
  - rewrite elem_of_nil. tauto.
  - rewrite IH, elem_of_cons. unfold Set_add, Set_has.
    case_bool_decide as Hy.
    + split; [tauto|]. intros [?|[->|?]]; auto.
    + rewrite elem_of_app, list_elem_of_singleton. tauto.
Qed.

Lemma elem_of_new_Set (xs : list string) (x : string) :
  x ∈ new_Set xs ↔ x ∈ xs.
Proof.
  unfold new_Set. rewrite elem_of_fold_Set_add, elem_of_nil. tauto.
Qed.

Lemma NoDup_fold_Set_add (xs acc : list string) :
  NoDup acc → NoDup (fold_left Set_add xs acc).
Proof.
  revert acc. induction xs as [|y xs IH]; intros acc Hacc; simpl; [done|].
  apply IH. unfold Set_add, Set_has. case_bool_decide as Hy; [done|].
  apply NoDup_app. split_and!; [done| |apply NoDup_singleton].
  intros z Hz ->%list_elem_of_singleton. done.
Qed.

Lemma NoDup_new_Set (xs : list string) : NoDup (new_Set xs).
Proof. apply NoDup_fold_Set_add, NoDup_nil_2. Qed.

Lemma Set_has_new_Set (xs : list string) (x : string) :
  Set_has (new_Set xs) x = bool_decide (x ∈ xs).
Proof. unfold Set_has. apply bool_decide_ext, elem_of_new_Set. Qed.

Lemma list_to_set_new_Set (xs : list string) :
  list_to_set (new_Set xs) =@{gset string} list_to_set xs.
Proof.
  apply set_eq. intros x. rewrite !elem_of_list_to_set. apply elem_of_new_Set.
Qed.

Lemma list_to_set_mjoin (xss : list (list string)) :
  list_to_set (mjoin xss) =@{gset string} ⋃ (list_to_set <$> xss).
Proof.
  induction xss as [|xs xss IH]; simpl; [done|].
  by rewrite list_to_set_app_L, IH.
Qed.

Lemma mjoin_all_nil {A B} (f : A → list B) (l : list A) :
  (∀ x, x ∈ l → f x = []) → mjoin (f <$> l) = [].
Proof.
  induction l as [|x l IH]; intros Hf; csimpl; [done|].
  rewrite (Hf x) by apply list_elem_of_here. csimpl.
  apply IH. intros y Hy. apply Hf. by apply list_elem_of_further.
Qed.

(** ** Outcomes *)

Lemma sequenceO_resolved {A B} (f : A → Outcome B) (g : A → B) (l : list A) :
  (∀ x, x ∈ l → f x = Resolved (g x)) →
  sequenceO (f <$> l) = Resolved (g <$> l).
Proof.
  induction l as [|x l IH]; intros Hf; csimpl; [done|].
  rewrite (Hf x) by apply list_elem_of_here.
  rewrite IH; [done|]. intros y Hy. apply Hf. by apply list_elem_of_further.
Qed.

Lemma sequenceO_rejected {A B} (f : A → Outcome B) (l : list A) x msg :
  x ∈ l → f x = Rejected msg → ∃ msg', sequenceO (f <$> l) = Rejected msg'.
Proof.
  induction l as [|y l IH]; intros Hx Hf; [by apply elem_of_nil in Hx|].
  csimpl. destruct (f y) as [b|m] eqn:Hy; [|by eexists].
  apply elem_of_cons in Hx as [->|Hx]; [congruence|].
  destruct (IH Hx Hf) as [msg' ->]. by eexists.
Qed.

(** ** Ticket extraction *)

Section ExtractionFacts.
Context {engine : RegexEngine}.

Lemma matchesOf_valid pattern regex message :
  new_RegExp pattern "g" = Resolved regex →
  matchesOf pattern message
  = Resolved (default [] (String_match message regex)).
Proof.
  intros Hre. unfold matchesOf. rewrite Hre.
  by destruct (String_match message regex).
Qed.

Lemma matchesOf_invalid pattern msg message :
  new_RegExp pattern "g" = Rejected msg →
  matchesOf pattern message = Rejected msg.
Proof. intros Hre. unfold matchesOf. by rewrite Hre. Qed.

Lemma ticketIdsOf_valid pattern regex commits :
  new_RegExp pattern "g" = Resolved regex →
  ticketIdsOf pattern commits
  = Resolved (new_Set (mjoin ((λ message,
        default [] (String_match message regex)) <$> commits))).
Proof.
  intros Hre. unfold ticketIdsOf.
  rewrite (sequenceO_resolved _
             (λ message, default [] (String_match message regex))); [done|].
  intros m _. by apply matchesOf_valid.
Qed.

Lemma ticketIdsOf_invalid pattern msg message commits :
  new_RegExp pattern "g" = Rejected msg →
  ticketIdsOf pattern (message :: commits) = Rejected msg.
Proof.
  intros Hre. unfold ticketIdsOf. csimpl.
  by rewrite (matchesOf_invalid _ msg).
Qed.

Lemma ticketIdsOf_set pattern regex commits :
  new_RegExp pattern "g" = Resolved regex →
  ∃ ticketIds, ticketIdsOf pattern commits = Resolved ticketIds
    ∧ list_to_set ticketIds = specIdentifierSet regex commits.
Proof.
  intros Hre. eexists. split; [by apply ticketIdsOf_valid|].
  rewrite list_to_set_new_Set, list_to_set_mjoin. unfold specIdentifierSet.
  by rewrite <- list_fmap_compose.
Qed.

(** C3. For every sequence of commit messages and every pattern the engine
    accepts, the extracted identifiers are, as a set, exactly the union over
    the messages of the global matches of the pattern in that message, each
    identifier listed once; no messages, or no match in any message, gives
    the empty collection. *)
Theorem C3_ticketIds_are_the_union_of_matches pattern regex commits :
  new_RegExp pattern "g" = Resolved regex →
  ∃ ticketIds,
    ticketIdsOf pattern commits = Resolved ticketIds
    ∧ NoDup ticketIds
    ∧ list_to_set ticketIds = specIdentifierSet regex commits
    ∧ (commits = [] → ticketIds = [])
    ∧ ((∀ message, message ∈ commits →
          String_match message regex = None) → ticketIds = []).
Proof.
  intros Hre. destruct (ticketIdsOf_set _ _ commits Hre) as (ids & Hids & Hset).
  exists ids. split_and!; [done| |done| |].
  - rewrite (ticketIdsOf_valid _ _ _ Hre) in Hids.
    injection Hids as <-. apply NoDup_new_Set.
  - intros ->. rewrite (ticketIdsOf_valid _ _ _ Hre) in Hids.
    by injection Hids as <-.
  - intros Hnone. rewrite (ticketIdsOf_valid _ _ _ Hre) in Hids.
    injection Hids as <-.
    rewrite mjoin_all_nil; [done|].
    intros m Hm. by rewrite (Hnone m Hm).
Qed.

(** C10. For a pattern the engine accepts, the identifier set extracted from
    the concatenation of two commit lists is the union of the sets extracted
    from each list. *)
Theorem C10_extraction_distributes_over_concatenation
    pattern regex commits1 commits2 :
  new_RegExp pattern "g" = Resolved regex →
  ∃ ids ids1 ids2,
    ticketIdsOf pattern (commits1 ++ commits2) = Resolved ids
    ∧ ticketIdsOf pattern commits1 = Resolved ids1
    ∧ ticketIdsOf pattern commits2 = Resolved ids2
    ∧ list_to_set ids =@{gset string} list_to_set ids1 ∪ list_to_set ids2.
Proof.
  intros Hre.
  destruct (ticketIdsOf_set _ _ (commits1 ++ commits2) Hre) as (ids & ? & Hs).
  destruct (ticketIdsOf_set _ _ commits1 Hre) as (ids1 & ? & Hs1).
  destruct (ticketIdsOf_set _ _ commits2 Hre) as (ids2 & ? & Hs2).
  exists ids, ids1, ids2. split_and!; [done..|].
  rewrite Hs, Hs1, Hs2. unfold specIdentifierSet.
  by rewrite fmap_app, union_list_app_L.
Qed.

End ExtractionFacts.

(** ** The effect monad *)

Lemma bind_resolved {A B} (t : list Event) (a : A) (f : A → M B) :
  bind (t, Resolved a) f = (t ++ (f a).1, (f a).2).
Proof. unfold bind. by destruct (f a). Qed.

Lemma bind_rejected {A B} (t : list Event) msg (f : A → M B) :
  bind (t, Rejected msg) f = (t, Rejected msg).
Proof. done. Qed.

Lemma bind_inv_resolved {A B} (m : M A) (f : A → M B) t b :
  bind m f = (t, Resolved b) →
  ∃ t1 a t2, m = (t1, Resolved a) ∧ f a = (t2, Resolved b) ∧ t = t1 ++ t2.
Proof.
  destruct m as [t1 [a|msg]]; [|done].
  rewrite bind_resolved. destruct (f a) as [t2 r] eqn:Hf. simpl.
  intros [= <- ->]. by exists t1, a, t2.
Qed.

Lemma sequenceM_resolved {K A} (f : K → M A) (tr : K → list Event)
    (val : K → A) (keys : list K) :
  (∀ k, k ∈ keys → f k = (tr k, Resolved (val k))) →
  sequenceM (f <$> keys) = (mjoin (tr <$> keys), Resolved (val <$> keys)).
Proof.
  induction keys as [|k keys IH]; intros Hf; csimpl; [done|].
  rewrite (Hf k) by apply list_elem_of_here.
  rewrite bind_resolved, IH.
  - rewrite bind_resolved. simpl. by rewrite app_nil_r.
  - intros k' Hk'. apply Hf. by apply list_elem_of_further.
Qed.

Lemma sequenceM_rejected {K A} (f : K → M A) (keys : list K) k t msg :
  k ∈ keys → f k = (t, Rejected msg) →
  ∃ t' msg', sequenceM (f <$> keys) = (t', Rejected msg').
Proof.
  induction keys as [|k' keys IH]; intros Hk Hf; [by apply elem_of_nil in Hk|].
  csimpl. destruct (f k') as [t1 [a|m]] eqn:Hk'; [|by eexists _, _].
  apply elem_of_cons in Hk as [->|Hk]; [congruence|].
  destruct (IH Hk Hf) as (t' & msg' & ->).
  rewrite bind_resolved. simpl. by eexists _, _.
Qed.

Lemma sequenceM_inv {K A} (f : K → M A) (keys : list K) t vs :
  sequenceM (f <$> keys) = (t, Resolved vs) →
  Forall2 (λ k v, ∃ tk, f k = (tk, Resolved v)) keys vs.
Proof.
  revert t vs. induction keys as [|k keys IH]; intros t vs; csimpl.
  - intros [= <- <-]. constructor.
  - intros (t1 & a & t2 & Hk & Hrest & ->)%bind_inv_resolved.
    apply bind_inv_resolved in Hrest as (t3 & r & t4 & Hseq & [= <- <-] & ->).
    constructor; [by exists t1|]. by eapply IH.
Qed.

(** ** Awaiting several calls *)

Lemma settleAll_resolved {A} arrival keys (task : string → Async A)
    (tr : string → list Event) (val : string → A) :
  (∀ k, k ∈ arrival keys → settled (task k) = (tr k, Resolved (val k))) →
  settleAll arrival keys task
  = (mjoin ((λ k, issued (task k)) <$> keys) ++ mjoin (tr <$> arrival keys),
     Resolved (val <$> arrival keys)).
Proof.
  intros Hf. unfold settleAll. rewrite bind_resolved.
  by rewrite (sequenceM_resolved (λ k, settled (task k)) tr val).
Qed.

Lemma settleAll_rejected {A} arrival keys (task : string → Async A) k t msg :
  k ∈ arrival keys → settled (task k) = (t, Rejected msg) →
  ∃ t' msg', settleAll arrival keys task = (t', Rejected msg').
Proof.
  intros Hk Hf. unfold settleAll. rewrite bind_resolved.
  destruct (sequenceM_rejected (λ k, settled (task k)) _ _ _ _ Hk Hf)
    as (t' & msg' & ->).
  by eexists _, _.
Qed.

Lemma settleAll_inv {A} arrival keys (task : string → Async A) t vs :
  settleAll arrival keys task = (t, Resolved vs) →
  Forall2 (λ k v, ∃ tk, settled (task k) = (tk, Resolved v))
    (arrival keys) vs.
Proof.
  unfold settleAll. rewrite bind_resolved.
  destruct (sequenceM _) as [t' r] eqn:Hseq. simpl. intros [= <- ->].
  by apply (sequenceM_inv (λ k, settled (task k))) in Hseq.
Qed.

Lemma Promise_all_resolved {A} arrival keys (task : string → Async A)
    (tr : string → list Event) (val : string → A) :
  (∀ ks, arrival ks ≡ₚ ks) →
  (∀ k, k ∈ keys → settled (task k) = (tr k, Resolved (val k))) →
  Promise_all arrival keys task
  = (mjoin ((λ k, issued (task k)) <$> keys) ++ mjoin (tr <$> arrival keys),
     Resolved (val <$> keys)).
Proof.
  intros Hperm Hf. unfold Promise_all.
  rewrite (settleAll_resolved _ _ _ tr val), bind_resolved.
  - unfold liftOutcome.
    rewrite (sequenceO_resolved (λ k, (settled (task k)).2) val).
    + simpl. by rewrite app_nil_r.
    + intros k Hk. by rewrite (Hf k Hk).
  - intros k Hk. apply Hf. by rewrite <- (Hperm keys).
Qed.

Lemma Promise_all_rejected {A} arrival keys (task : string → Async A) k t msg :
  (∀ ks, arrival ks ≡ₚ ks) →
  k ∈ keys → settled (task k) = (t, Rejected msg) →
  ∃ t' msg', Promise_all arrival keys task = (t', Rejected msg').
Proof.
  intros Hperm Hk Hf. unfold Promise_all.
  destruct (settleAll_rejected arrival keys task k t msg) as (t' & msg' & ->);
    [by rewrite (Hperm keys)|done|].
  by eexists _, _.
Qed.

(** ** Insertion-ordered maps *)

Section MapFacts.
Context {V : Type}.
Implicit Types (m : list (string * V)) (k : string) (v : V).

Lemma Map_set_fresh m k v : Map_has m k = false → Map_set m k v = m ++ [(k, v)].
Proof.
  unfold Map_has. rewrite bool_decide_eq_false.
  induction m as [|[k' v'] m IH]; csimpl; [done|].
  rewrite not_elem_of_cons. intros [Hne Hk].
  rewrite decide_False by done. by rewrite IH.
Qed.

Lemma Map_mutate_keys m k f : Map_keys (Map_mutate m k f) = Map_keys m.
Proof.
  unfold Map_keys. induction m as [|[k' v'] m IH]; csimpl; [done|].
  case_decide; csimpl; [done|]. by rewrite IH.
Qed.

Lemma Map_get_mutate m k f k' :
  Map_get (Map_mutate m k f) k'
  = if decide (k = k') then f <$> Map_get m k else Map_get m k'.
Proof.
  induction m as [|[k0 v0] m IH]; csimpl; [by case_decide|].
  destruct (decide (k0 = k)) as [->|Hne]; csimpl.
  - by repeat (case_decide; simplify_eq/=).
  - rewrite IH. by repeat (case_decide; simplify_eq/=).
Qed.

Lemma Map_get_snoc m k v k' :
  Map_get (m ++ [(k, v)]) k'
  = match Map_get m k' with
    | Some x => Some x
    | None => if decide (k = k') then Some v else None
    end.
Proof.
  induction m as [|[k0 v0] m IH]; csimpl; [done|].
  destruct (decide (k0 = k')); [done|apply IH].
Qed.

Lemma Map_get_None m k : Map_get m k = None ↔ k ∉ Map_keys m.
Proof.
  unfold Map_keys. induction m as [|[k0 v0] m IH]; csimpl.
  - split; [intros _; apply not_elem_of_nil|done].
  - rewrite not_elem_of_cons. case_decide; [|naive_solver].
    split; [done|]. intros [? _]. congruence.
Qed.

Lemma Map_get_elem_of m k v :
  NoDup (Map_keys m) → (k, v) ∈ m → Map_get m k = Some v.
Proof.
  unfold Map_keys. induction m as [|[k0 v0] m IH]; csimpl; intros Hnd Hin.
  - by apply elem_of_nil in Hin.
  - apply NoDup_cons in Hnd as [Hk0 Hnd].
    apply elem_of_cons in Hin as [[= -> ->]|Hin]; [by rewrite decide_True|].
    rewrite decide_False; [by apply IH|].
    intros ->. apply Hk0. apply list_elem_of_fmap. by exists (k, v).
Qed.

End MapFacts.

(** ** Grouping *)

Lemma allChildren_mutate storyMap k issue :
  k ∈ Map_keys storyMap →
  allChildren (Map_mutate storyMap k (pushChild issue))
  ≡ₚ allChildren storyMap ++ [issue].
Proof.
  unfold allChildren, Map_keys.
  induction storyMap as [|[k0 g0] storyMap IH]; csimpl; intros Hk.
  - by apply elem_of_nil in Hk.
  - case_decide as Hk0; csimpl.
    + rewrite <- !(assoc_L (++)). f_equiv. apply Permutation_app_comm.
    + apply elem_of_cons in Hk as [->|Hk]; [done|].
      rewrite (IH Hk). by rewrite (assoc_L (++)).
Qed.

Lemma allChildren_snoc storyMap k g :
  allChildren (storyMap ++ [(k, g)]) = allChildren storyMap ++ children g.
Proof.
  unfold allChildren. rewrite fmap_app, join_app. csimpl.
  by rewrite app_nil_r.
Qed.

(** One step of the loop, read through keys, children and orphans. *)
Lemma groupIssue_keys acc issue :
  Map_keys (groupIssue acc issue).1
  = match parentKey issue with
    | Some k => Set_add (Map_keys acc.1) k
    | None => Map_keys acc.1
    end.
Proof.
  destruct acc as [sm orph]. unfold groupIssue, parentKey.
  destruct (parent issue) as [p|]; simpl; [|done].
  rewrite Map_mutate_keys. unfold Set_add, Set_has, Map_has, Map_keys.
  case_bool_decide; [done|].
  rewrite Map_set_fresh by (by apply bool_decide_eq_false).
  by rewrite fmap_app.
Qed.

Lemma groupIssue_orphans acc issue :
  (groupIssue acc issue).2
  = acc.2 ++ filter (λ i, parent i = None) [issue].
Proof.
  destruct acc as [sm orph]. unfold groupIssue.
  destruct (parent issue) as [p|] eqn:Hp; simpl.
  - rewrite filter_cons_False by congruence. by rewrite app_nil_r.
  - by rewrite filter_cons_True.
Qed.

Lemma groupIssue_childrenAt acc issue k :
  childrenAt (groupIssue acc issue).1 k
  = childrenAt acc.1 k ++ filter (λ i, parentKey i = Some k) [issue].
Proof.
  destruct acc as [sm orph]. unfold groupIssue, childrenAt.
  destruct (parent issue) as [p|] eqn:Hp; simpl.
  - rewrite Map_get_mutate. unfold Map_has.
    destruct (decide (story_key p = k)) as [<-|Hne].
    + rewrite filter_cons_True by (unfold parentKey; by rewrite Hp).
      case_bool_decide as Hin.
      * destruct (Map_get sm (story_key p)) eqn:Hget; [done|].
        by apply Map_get_None in Hget.
      * rewrite Map_set_fresh by (by apply bool_decide_eq_false).
        rewrite Map_get_snoc.
        apply Map_get_None in Hin as ->. by rewrite decide_True.
    + rewrite filter_cons_False, app_nil_r;
        [|unfold parentKey; rewrite Hp; simpl; congruence].
      case_bool_decide as Hin; [done|].
      rewrite Map_set_fresh by (by apply bool_decide_eq_false).
      rewrite Map_get_snoc. destruct (Map_get sm k); [done|].
      by rewrite decide_False.
  - rewrite filter_cons_False, app_nil_r; [done|].
    unfold parentKey. by rewrite Hp.
Qed.

Lemma groupIssue_perm acc issue :
  (groupIssue acc issue).2 ++ allChildren (groupIssue acc issue).1
  ≡ₚ (acc.2 ++ allChildren acc.1) ++ [issue].
Proof.
  destruct acc as [sm orph]. unfold groupIssue.
  destruct (parent issue) as [p|]; simpl.
  - rewrite allChildren_mutate.
    + unfold Map_has. case_bool_decide as Hin.
      * by rewrite (assoc_L (++)).
      * rewrite Map_set_fresh by (by apply bool_decide_eq_false).
        rewrite allChildren_snoc. simpl.
        by rewrite app_nil_r, (assoc_L (++)).
    + unfold Map_has. case_bool_decide as Hin; [done|].
      rewrite Map_set_fresh by (by apply bool_decide_eq_false).
      unfold Map_keys. rewrite fmap_app. apply elem_of_app. right.
      apply list_elem_of_here.
  - rewrite <- !(assoc_L (++)). f_equiv. apply Permutation_app_comm.
Qed.

(** The whole loop, from any starting point. *)
Lemma fold_groupIssue issues acc :
  let r := fold_left groupIssue issues acc in
  Map_keys r.1 = fold_left Set_add (omap parentKey issues) (Map_keys acc.1)
  ∧ r.2 = acc.2 ++ filter (λ i, parent i = None) issues
  ∧ (∀ k, childrenAt r.1 k
          = childrenAt acc.1 k ++ filter (λ i, parentKey i = Some k) issues)
  ∧ r.2 ++ allChildren r.1 ≡ₚ (acc.2 ++ allChildren acc.1) ++ issues.
Proof.
  revert acc. induction issues as [|issue issues IH]; intros acc; simpl.
  - rewrite !app_nil_r. split_and!; try done. intros k. by rewrite app_nil_r.
  - destruct (IH (groupIssue acc issue)) as (Hk & Ho & Hc & Hp).
    split_and!.
    + rewrite Hk, groupIssue_keys. by destruct (parentKey issue).
    + rewrite Ho, groupIssue_orphans.
      rewrite <- (assoc_L (++)). f_equal.
      by rewrite <- filter_app.
    + intros k. rewrite Hc, groupIssue_childrenAt.
      rewrite <- (assoc_L (++)). f_equal. by rewrite <- filter_app.
    + rewrite Hp, groupIssue_perm. by rewrite <- (assoc_L (++)).
Qed.

Lemma groupIssues_keys issues :
  Map_keys (groupIssues issues).1 = new_Set (omap parentKey issues).
Proof. apply (fold_groupIssue issues ([], [])). Qed.

Lemma elem_of_groupIssues_keys issues k :
  k ∈ Map_keys (groupIssues issues).1
  ↔ ∃ issue p, issue ∈ issues ∧ parent issue = Some p ∧ story_key p = k.
Proof.
  rewrite groupIssues_keys, elem_of_new_Set, list_elem_of_omap.
  unfold parentKey. split.
  - intros (issue & Hin & Hk). destruct (parent issue) as [p|] eqn:Hp; [|done].
    injection Hk as <-. by exists issue, p.
  - intros (issue & p & Hin & Hp & <-). exists issue. by rewrite Hp.
Qed.

(** C2. Grouping is a partition of the fetched issues: together the orphan
    list and the children lists hold each fetched issue exactly once; the
    orphans are the issues without [parent], the children under a key are
    the issues whose [parent.key] is that key, no issue is on both sides;
    and [parent] is set by the fetcher exactly when the tracker reported a
    parent of type Story. *)
Theorem C2_grouping_is_a_partition (jiraIssuesInfo : list Issue) :
  orphanIssuesOf jiraIssuesInfo ++ allChildren (storyMapOf jiraIssuesInfo)
    ≡ₚ jiraIssuesInfo
  ∧ NoDup (Map_keys (storyMapOf jiraIssuesInfo))
  ∧ orphanIssuesOf jiraIssuesInfo
    = filter (λ issue, parent issue = None) jiraIssuesInfo
  ∧ (∀ k g, (k, g) ∈ storyMapOf jiraIssuesInfo →
       children g = filter (λ issue, parentKey issue = Some k) jiraIssuesInfo)
  ∧ (∀ issue, issue ∈ orphanIssuesOf jiraIssuesInfo →
       issue ∉ allChildren (storyMapOf jiraIssuesInfo))
  ∧ (∀ issueKey data,
       parentKey (issueOfFields issueKey data)
       = match fields_parent data with
         | Some p =>
             if decide (parent_issuetype_name p = "Story")
             then Some (parent_key p) else None
         | None => None
         end).
Proof.
  unfold orphanIssuesOf, storyMapOf.
  destruct (fold_groupIssue jiraIssuesInfo ([], [])) as (Hk & Ho & Hc & Hp).
  fold (groupIssues jiraIssuesInfo) in Hk, Ho, Hc, Hp. simpl in *.
  assert (NoDup (Map_keys (groupIssues jiraIssuesInfo).1)) as Hnd.
  { rewrite Hk. apply NoDup_new_Set. }
  assert (∀ k g, (k, g) ∈ (groupIssues jiraIssuesInfo).1 →
            children g
            = filter (λ issue, parentKey issue = Some k) jiraIssuesInfo) as Hg.
  { intros k g Hin. rewrite <- Hc. unfold childrenAt.
    by rewrite (Map_get_elem_of _ _ _ Hnd Hin). }
  split_and!; try done.
  - intros issue Horph Hchild. rewrite Ho in Horph.
    apply list_elem_of_filter in Horph as [Hnone _].
    unfold allChildren in Hchild.
    apply list_elem_of_join in Hchild as (cs & Hissue & Hcs).
    apply list_elem_of_fmap in Hcs as ([k g] & -> & Hin). simpl in Hissue.
    rewrite (Hg k g Hin) in Hissue.
    apply list_elem_of_filter in Hissue as [Hsome _].
    unfold parentKey in Hsome. by rewrite Hnone in Hsome.
  - intros issueKey data. unfold parentKey, issueOfFields.
    destruct (fields_parent data) as [p|]; [|done]. by case_decide.
Qed.

(** ** The tracker calls, by kind of response *)

Section Calls.
Context (w : World) (baseUrl email apiToken : string).

Lemma getJiraIssueInfo_settled issueKey :
  rejects (issueResponse w issueKey) = false →
  settled (getJiraIssueInfo w issueKey baseUrl email apiToken)
  = (lookupWarnings w issueKey, Resolved (issueReported w issueKey)).
Proof.
  unfold getJiraIssueInfo, lookupWarnings, issueReported. simpl.
  by destruct (issueResponse w issueKey) as [msg| |[data|msg]].
Qed.

Lemma getJiraIssueInfo_rejected issueKey :
  rejects (issueResponse w issueKey) = true →
  ∃ msg, settled (getJiraIssueInfo w issueKey baseUrl email apiToken)
         = ([], Rejected msg).
Proof.
  unfold getJiraIssueInfo. simpl.
  destruct (issueResponse w issueKey) as [msg| |[data|msg]];
    try done; by eexists.
Qed.

Lemma missingChildrenOf_settled committedIssueKeys storyKey :
  rejects (searchResponse w storyKey) = false →
  settled (missingChildrenOf w committedIssueKeys baseUrl email apiToken
             storyKey)
  = (searchWarnings w storyKey,
     Resolved (filter (λ child, Set_has committedIssueKeys (key child) = false)
                 (childrenReported w storyKey))).
Proof.
  unfold missingChildrenOf, getStoryChildren, searchWarnings, childrenReported.
  simpl. by destruct (searchResponse w storyKey) as [msg| |[issues|msg]].
Qed.

Lemma missingChildrenOf_rejected committedIssueKeys storyKey :
  rejects (searchResponse w storyKey) = true →
  ∃ msg, settled (missingChildrenOf w committedIssueKeys baseUrl email apiToken
                    storyKey) = ([], Rejected msg).
Proof.
  unfold missingChildrenOf, getStoryChildren. simpl.
  destruct (searchResponse w storyKey) as [msg| |[issues|msg]];
    try done; by eexists.
Qed.

Lemma uncommitted_filter ticketIds (l : list Issue) :
  filter (λ child, Set_has (new_Set ticketIds) (key child) = false) l
  = filter (λ child, key child ∉ ticketIds) l.
Proof.
  apply list_filter_iff. intros child.
  by rewrite Set_has_new_Set, bool_decide_eq_false.
Qed.

(** What [aggregate] resolves with when no search for children throws. *)
Lemma aggregate_resolved jiraIssuesInfo ticketIds :
  (∀ k, k ∈ Map_keys (storyMapOf jiraIssuesInfo) →
        rejects (searchResponse w k) = false) →
  aggregate w jiraIssuesInfo ticketIds baseUrl email apiToken
  = (mjoin ((λ k, issued (getStoryChildren w k baseUrl email apiToken))
              <$> Map_keys (storyMapOf jiraIssuesInfo))
     ++ mjoin (searchWarnings w
                 <$> arrival w (Map_keys (storyMapOf jiraIssuesInfo))),
     Resolved
       {| storyMap := storyMapOf jiraIssuesInfo;
          orphanIssues := orphanIssuesOf jiraIssuesInfo;
          missingChildIssues :=
            mjoin ((λ k, filter (λ child, key child ∉ ticketIds)
                           (childrenReported w k))
                     <$> arrival w (Map_keys (storyMapOf jiraIssuesInfo))) |}).
Proof.
  intros Hok. unfold aggregate, storyMapOf, orphanIssuesOf in *.
  destruct (groupIssues jiraIssuesInfo) as [sm orph]. simpl in *.
  rewrite (settleAll_resolved _ _ _ (searchWarnings w)
             (λ k, filter (λ child, key child ∉ ticketIds)
                     (childrenReported w k))).
  - rewrite bind_resolved. simpl. by rewrite app_nil_r.
  - intros k Hk. rewrite missingChildrenOf_settled, uncommitted_filter; [done|].
    apply Hok. by rewrite <- (arrival_perm w (Map_keys sm)).
Qed.

(** When one of them throws, [aggregate] is rejected. *)
Lemma aggregate_rejected jiraIssuesInfo ticketIds k :
  k ∈ Map_keys (storyMapOf jiraIssuesInfo) →
  rejects (searchResponse w k) = true →
  ∃ t msg, aggregate w jiraIssuesInfo ticketIds baseUrl email apiToken
           = (t, Rejected msg).
Proof.
  intros Hk Hrej. unfold aggregate, storyMapOf in *.
  destruct (groupIssues jiraIssuesInfo) as [sm orph]. simpl in *.
  destruct (missingChildrenOf_rejected (new_Set ticketIds) k Hrej) as [m Hm].
  destruct (settleAll_rejected (arrival w) (Map_keys sm)
              (missingChildrenOf w (new_Set ticketIds) baseUrl email apiToken)
              k [] m) as (t' & msg' & ->); [|done|by eexists _, _].
  by rewrite (arrival_perm w (Map_keys sm)).
Qed.

Lemma aggregate_inv jiraIssuesInfo ticketIds t a :
  aggregate w jiraIssuesInfo ticketIds baseUrl email apiToken
  = (t, Resolved a) →
  ∀ k, k ∈ Map_keys (storyMapOf jiraIssuesInfo) →
       rejects (searchResponse w k) = false.
Proof.
  intros Hagg k Hk. destruct (rejects (searchResponse w k)) eqn:Hrej; [|done].
  destruct (aggregate_rejected jiraIssuesInfo ticketIds k Hk Hrej)
    as (t' & msg & Hrejected).
  congruence.
Qed.

(** C1. Whenever the aggregation completes, every issue on the missing-child
    list is one the tracker lists as a child of a key that is [parent.key] of
    some fetched issue, and its own key is not among the ticket identifiers
    extracted from the commits. *)
Theorem C1_missing_children_come_from_surfaced_parents
    jiraIssuesInfo ticketIds t a :
  aggregate w jiraIssuesInfo ticketIds baseUrl email apiToken
  = (t, Resolved a) →
  ∀ child, child ∈ missingChildIssues a →
    (∃ storyKey issue p,
        issue ∈ jiraIssuesInfo ∧ parent issue = Some p
        ∧ story_key p = storyKey
        ∧ child ∈ childrenReported w storyKey)
    ∧ key child ∉ ticketIds.
Proof.
  intros Hagg child Hchild.
  pose proof (aggregate_inv _ _ _ _ Hagg) as Hok.
  rewrite (aggregate_resolved _ _ Hok) in Hagg. injection Hagg as _ <-.
  simpl in Hchild.
  apply list_elem_of_join in Hchild as (cs & Hin & Hcs).
  apply list_elem_of_fmap in Hcs as (k & -> & Hk).
  apply list_elem_of_filter in Hin as [Hnot Hrep].
  split; [|done].
  rewrite (arrival_perm w _) in Hk.
  apply elem_of_groupIssues_keys in Hk as (issue & p & ? & ? & ?).
  by exists k, issue, p.
Qed.

End Calls.

(** ** The joint lookup of the extracted tickets *)

Section Lookups.
Context (w : World) (baseUrl email apiToken : string).

Lemma filter_Boolean_reported (ticketIds : list string) :
  filter_Boolean (issueReported w <$> ticketIds)
  = omap (issueReported w) ticketIds.
Proof.
  unfold filter_Boolean. induction ticketIds as [|k ks IH]; csimpl; [done|].
  rewrite IH. by destruct (issueReported w k).
Qed.

Lemma key_issueOfFields issueKey data :
  key (issueOfFields issueKey data) = issueKey.
Proof.
  unfold issueOfFields. destruct (fields_parent data); [|done].
  by case_decide.
Qed.

Lemma issueReported_Some issueKey issue :
  issueReported w issueKey = Some issue →
  key issue = issueKey ∧ ∃ data, issueResponse w issueKey = Success (Resolved data).
Proof.
  unfold issueReported.
  destruct (issueResponse w issueKey) as [msg| |[data|msg]]; try done.
  intros [= <-]. split; [apply key_issueOfFields|by exists data].
Qed.

Lemma lookups_resolved ticketIds :
  (∀ k, k ∈ ticketIds → rejects (issueResponse w k) = false) →
  Promise_all (arrival w) ticketIds
    (λ pattern, getJiraIssueInfo w pattern baseUrl email apiToken)
  = (mjoin ((λ k, issued (getJiraIssueInfo w k baseUrl email apiToken))
              <$> ticketIds)
     ++ mjoin (lookupWarnings w <$> arrival w ticketIds),
     Resolved (issueReported w <$> ticketIds)).
Proof.
  intros Hok.
  apply (Promise_all_resolved _ _
           (λ pattern, getJiraIssueInfo w pattern baseUrl email apiToken)
           (lookupWarnings w) (issueReported w)); [apply arrival_perm|].
  intros k Hk. by apply getJiraIssueInfo_settled, Hok.
Qed.

Lemma lookups_rejected ticketIds k :
  k ∈ ticketIds → rejects (issueResponse w k) = true →
  ∃ t msg, Promise_all (arrival w) ticketIds
             (λ pattern, getJiraIssueInfo w pattern baseUrl email apiToken)
           = (t, Rejected msg).
Proof.
  intros Hk Hrej.
  destruct (getJiraIssueInfo_rejected w baseUrl email apiToken k Hrej)
    as [m Hm].
  by apply (Promise_all_rejected _ _
              (λ pattern, getJiraIssueInfo w pattern baseUrl email apiToken)
              k [] m); [apply arrival_perm| |].
Qed.

Lemma lookups_inv ticketIds t jiraIssuesInfo :
  Promise_all (arrival w) ticketIds
    (λ pattern, getJiraIssueInfo w pattern baseUrl email apiToken)
  = (t, Resolved jiraIssuesInfo) →
  ∀ k, k ∈ ticketIds → rejects (issueResponse w k) = false.
Proof.
  intros Hall k Hk. destruct (rejects (issueResponse w k)) eqn:Hrej; [|done].
  destruct (lookups_rejected ticketIds k Hk Hrej) as (t' & msg & Hrejected).
  congruence.
Qed.

Lemma elem_of_mjoin_warnings {K} (f : K → list Event) (keys : list K) k e :
  k ∈ keys → e ∈ f k → e ∈ mjoin (f <$> keys).
Proof.
  intros Hk He. apply list_elem_of_join. exists (f k). split; [done|].
  by apply list_elem_of_fmap_2.
Qed.

(** C4 (amended). When no lookup of the run throws, a lookup answered with a
    non-success status leaves its warning and yields no issue; the joint
    lookup resolves, and the working set handed to the aggregator holds,
    in order, exactly the issues of the tickets whose lookup succeeded: none
    with the key of a refused lookup, every one of a successful lookup. *)
Theorem C4_refused_lookup_is_dropped_with_a_warning (ticketIds : list string) :
  (∀ k, k ∈ ticketIds → rejects (issueResponse w k) = false) →
  ∃ t jiraIssuesInfo,
    Promise_all (arrival w) ticketIds
      (λ pattern, getJiraIssueInfo w pattern baseUrl email apiToken)
    = (t, Resolved jiraIssuesInfo)
    ∧ filter_Boolean jiraIssuesInfo = omap (issueReported w) ticketIds
    ∧ (∀ k, k ∈ ticketIds → issueResponse w k = NonSuccess →
         Warn ("Unable to fetch info for " +:+ k) ∈ t
         ∧ settled (getJiraIssueInfo w k baseUrl email apiToken)
           = ([Warn ("Unable to fetch info for " +:+ k)], Resolved None)
         ∧ ∀ issue, issue ∈ filter_Boolean jiraIssuesInfo → key issue ≠ k)
    ∧ (∀ k data, k ∈ ticketIds →
         issueResponse w k = Success (Resolved data) →
         issueOfFields k data ∈ filter_Boolean jiraIssuesInfo).
Proof.
  intros Hok. eexists _, _. split; [by apply lookups_resolved|].
  rewrite filter_Boolean_reported. split_and!; [done| |].
  - intros k Hk Hk'. split_and!.
    + apply elem_of_app. right.
      apply (elem_of_mjoin_warnings _ _ k);
        [by rewrite (arrival_perm w ticketIds)|].
      unfold lookupWarnings. rewrite Hk'. apply list_elem_of_here.
    + unfold getJiraIssueInfo. simpl. by rewrite Hk'.
    + intros issue (k' & Hin & Hrep)%list_elem_of_omap.
      apply issueReported_Some in Hrep as [<- [data Hdata]]. congruence.
  - intros k data Hk Hdata. apply list_elem_of_omap. exists k.
    split; [done|]. unfold issueReported. by rewrite Hdata.
Qed.

(** C7 (amended). When no search for children throws, the aggregation
    completes; a search answered with a non-success status leaves its warning
    and counts as no children for that Story, and the missing-child list is
    made of what every Story key contributes, in order of settlement. *)
Theorem C7_refused_search_counts_as_no_children
    (jiraIssuesInfo : list Issue) (ticketIds : list string) :
  (∀ k, k ∈ Map_keys (storyMapOf jiraIssuesInfo) →
        rejects (searchResponse w k) = false) →
  ∃ t a,
    aggregate w jiraIssuesInfo ticketIds baseUrl email apiToken
    = (t, Resolved a)
    ∧ missingChildIssues a
      = mjoin ((λ k, filter (λ child, key child ∉ ticketIds)
                       (childrenReported w k))
                 <$> arrival w (Map_keys (storyMapOf jiraIssuesInfo)))
    ∧ (∀ k, k ∈ Map_keys (storyMapOf jiraIssuesInfo) →
         searchResponse w k = NonSuccess →
         Warn ("Unable to fetch children for " +:+ k) ∈ t
         ∧ settled (getStoryChildren w k baseUrl email apiToken)
           = ([Warn ("Unable to fetch children for " +:+ k)], Resolved [])
         ∧ childrenReported w k = [])
    ∧ (∀ k child, k ∈ Map_keys (storyMapOf jiraIssuesInfo) →
         child ∈ childrenReported w k → key child ∉ ticketIds →
         child ∈ missingChildIssues a).
Proof.
  intros Hok. eexists _, _.
  split; [by apply aggregate_resolved|]. simpl. split_and!; [done| |].
  - intros k Hk Hk'. split_and!.
    + apply elem_of_app. right.
      apply (elem_of_mjoin_warnings _ _ k); [by rewrite (arrival_perm w _)|].
      unfold searchWarnings. rewrite Hk'. apply list_elem_of_here.
    + unfold getStoryChildren. simpl. by rewrite Hk'.
    + unfold childrenReported. by rewrite Hk'.
  - intros k child Hk Hchild Hnot. apply list_elem_of_join.
    exists (filter (λ child, key child ∉ ticketIds) (childrenReported w k)).
    split; [by apply list_elem_of_filter|].
    apply (list_elem_of_fmap_2
             (λ k, filter (λ child, key child ∉ ticketIds)
                     (childrenReported w k))).
    by rewrite (arrival_perm w _).
Qed.

End Lookups.

(** ** The run *)

Lemma bind_ret_l {A B} (a : A) (f : A → M B) : bind (ret a) f = f a.
Proof. unfold ret. rewrite bind_resolved. by destruct (f a). Qed.

Section RunFacts.
Context {engine : RegexEngine}.

Lemma getRequiredInput_set w name :
  getInput w name ≠ "" → getRequiredInput w name = ret (getInput w name).
Proof. intros Hset. unfold getRequiredInput. by rewrite decide_False. Qed.

(** The [try] block once the context checks have passed. *)
Lemma runTry_started w prNumber commits :
  Started w prNumber commits →
  runTry w
  = (do _ ← emit (ListCommits prNumber);
     do ticketIds ←
       liftOutcome (ticketIdsOf (jiraTicketPatternOf w) commits);
     if bool_decide (length ticketIds = 0) then
       emit (Notice "No Jira ticket IDs found in commit messages")
     else
       do jiraIssuesInfo ←
         Promise_all (arrival w) ticketIds
           (λ pattern,
              getJiraIssueInfo w pattern (getInput w "jira-base-url")
                (getInput w "jira-email") (getInput w "jira-api-token"));
       do output ←
         generateStructuredOutput w (filter_Boolean jiraIssuesInfo) ticketIds
           (getInput w "jira-base-url") (getInput w "jira-email")
           (getInput w "jira-api-token");
       do _ ← emit (UpdatePR prNumber output);
       liftOutcome (updateResult w)).
Proof.
  intros (Htoken & Hurl & Hemail & Hapi & Hpr & Hnum & Hcommits).
  unfold runTry.
  rewrite !getRequiredInput_set, !bind_ret_l by done.
  rewrite Hpr. destruct prNumber as [|n]; [done|].
  rewrite Hcommits.
  change (liftOutcome (Resolved commits)) with (ret commits).
  by rewrite bind_ret_l.
Qed.

(** C5. In every run that reaches the extraction and extracts no identifier,
    the trace is the commit listing followed by the notice: no request goes
    to the tracker, the run is not marked failed, and the description is not
    updated. *)
Theorem C5_no_tickets_ends_with_a_notice w prNumber commits :
  Started w prNumber commits →
  ticketIdsOf (jiraTicketPatternOf w) commits = Resolved [] →
  run w = [ListCommits prNumber;
           Notice "No Jira ticket IDs found in commit messages"]
  ∧ (∀ url, Fetch url ∉ run w)
  ∧ (∀ msg, SetFailed msg ∉ run w)
  ∧ (∀ n body, UpdatePR n body ∉ run w).
Proof.
  intros Hstarted Hids.
  assert (run w = [ListCommits prNumber;
                   Notice "No Jira ticket IDs found in commit messages"])
    as ->.
  { unfold run. rewrite (runTry_started _ _ _ Hstarted), Hids. done. }
  split_and!; [done|..]; intros; rewrite !elem_of_cons, elem_of_nil;
    naive_solver.
Qed.

(** C8 (amended). In every run that reaches the extraction with at least one
    commit, a pattern the engine refuses makes the run fail with the
    engine's error message, before any request to the tracker. *)
Theorem C8_invalid_pattern_fails_when_there_is_a_commit
    w prNumber message commits msg :
  Started w prNumber (message :: commits) →
  new_RegExp (jiraTicketPatternOf w) "g" = Rejected msg →
  run w = [ListCommits prNumber; SetFailed msg].
Proof.
  intros Hstarted Hre. unfold run.
  rewrite (runTry_started _ _ _ Hstarted).
  by rewrite (ticketIdsOf_invalid _ msg).
Qed.

(** The trace of a run whose lookups and aggregation complete. *)
Lemma run_described w prNumber commits ticketIds t jiraIssuesInfo t' a :
  Started w prNumber commits →
  ticketIdsOf (jiraTicketPatternOf w) commits = Resolved ticketIds →
  ticketIds ≠ [] →
  Promise_all (arrival w) ticketIds
    (λ pattern,
       getJiraIssueInfo w pattern (getInput w "jira-base-url")
         (getInput w "jira-email") (getInput w "jira-api-token"))
  = (t, Resolved jiraIssuesInfo) →
  aggregate w (filter_Boolean jiraIssuesInfo) ticketIds
    (getInput w "jira-base-url") (getInput w "jira-email")
    (getInput w "jira-api-token")
  = (t', Resolved a) →
  run w
  = ListCommits prNumber :: t ++ t'
    ++ UpdatePR prNumber (render (getInput w "jira-base-url") a)
    :: match updateResult w with
       | Resolved _ => []
       | Rejected msg => [SetFailed msg]
       end.
Proof.
  intros Hstarted Hids Hne Hall Hagg. unfold run.
  rewrite (runTry_started _ _ _ Hstarted), Hids.
  unfold emit, liftOutcome. rewrite !bind_resolved. simpl.
  rewrite bool_decide_eq_false_2 by (by destruct ticketIds).
  rewrite Hall, bind_resolved. unfold generateStructuredOutput.
  rewrite Hagg, !bind_resolved. simpl.
  destruct (updateResult w) as [[]|msg]; simpl;
    by rewrite ?app_nil_r, <- ?(assoc_L (++)).
Qed.

(** C9. In a run whose lookups and aggregation complete, the description
    written is rendered from an aggregation in which no missing child has
    the key of any extracted ticket; this includes the tickets whose lookup
    was refused, which are in no group and not among the orphans. *)
Theorem C9_extracted_keys_are_never_missing
    w prNumber commits ticketIds t jiraIssuesInfo t' a :
  Started w prNumber commits →
  ticketIdsOf (jiraTicketPatternOf w) commits = Resolved ticketIds →
  ticketIds ≠ [] →
  Promise_all (arrival w) ticketIds
    (λ pattern,
       getJiraIssueInfo w pattern (getInput w "jira-base-url")
         (getInput w "jira-email") (getInput w "jira-api-token"))
  = (t, Resolved jiraIssuesInfo) →
  aggregate w (filter_Boolean jiraIssuesInfo) ticketIds
    (getInput w "jira-base-url") (getInput w "jira-email")
    (getInput w "jira-api-token")
  = (t', Resolved a) →
  UpdatePR prNumber (render (getInput w "jira-base-url") a) ∈ run w
  ∧ (∀ k child, k ∈ ticketIds → child ∈ missingChildIssues a →
       key child ≠ k)
  ∧ (∀ k issue, k ∈ ticketIds → issueResponse w k = NonSuccess →
       issue ∈ orphanIssues a ++ allChildren (storyMap a) → key issue ≠ k).
Proof.
  intros Hstarted Hids Hne Hall Hagg. split_and!.
  - rewrite (run_described _ _ _ _ _ _ _ _ Hstarted Hids Hne Hall Hagg).
    rewrite elem_of_cons, !elem_of_app, elem_of_cons. auto.
  - intros k child Hk Hchild Heq.
    pose proof (aggregate_inv _ _ _ _ _ _ _ _ Hagg) as Hok.
    rewrite (aggregate_resolved _ _ _ _ _ _ Hok) in Hagg.
    injection Hagg as _ <-. simpl in Hchild.
    apply list_elem_of_join in Hchild as (cs & Hin & Hcs).
    apply list_elem_of_fmap in Hcs as (k' & -> & _).
    apply list_elem_of_filter in Hin as [Hnot _]. by rewrite Heq in Hnot.
  - intros k issue Hk Hrefused Hissue Heq.
    pose proof (lookups_inv _ _ _ _ _ _ _ Hall) as Hlook.
    rewrite (lookups_resolved _ _ _ _ _ Hlook) in Hall.
    injection Hall as _ <-.
    pose proof (aggregate_inv _ _ _ _ _ _ _ _ Hagg) as Hok.
    rewrite (aggregate_resolved _ _ _ _ _ _ Hok) in Hagg.
    injection Hagg as _ <-. simpl in Hissue.
    destruct (fold_groupIssue
                (filter_Boolean (issueReported w <$> ticketIds)) ([], []))
      as (_ & _ & _ & Hperm).
    unfold storyMapOf, orphanIssuesOf, groupIssues in Hissue.
    rewrite Hperm in Hissue. simpl in Hissue.
    rewrite filter_Boolean_reported in Hissue.
    apply list_elem_of_omap in Hissue as (k' & _ & Hrep).
    apply issueReported_Some in Hrep as [Hkey [data Hdata]]. congruence.
Qed.

End RunFacts.

(** ** Rendering *)

Lemma append_cons c (s1 s2 : string) :
  String c s1 +:+ s2 = String c (s1 +:+ s2).
Proof. done. Qed.

Lemma append_assoc (s1 s2 s3 : string) : (s1 +:+ s2) +:+ s3 = s1 +:+ s2 +:+ s3.
Proof.
  induction s1 as [|c s1 IH]; [done|]. by rewrite !append_cons, IH.
Qed.

Lemma append_empty_r (s : string) : s +:+ "" = s.
Proof. induction s as [|c s IH]; [done|]. by rewrite append_cons, IH. Qed.

Lemma fold_bullets baseUrl (issues : list Issue) (output : string) :
  fold_left (λ output issue, output +:+ bullet baseUrl issue) issues output
  = output +:+ bullets baseUrl issues.
Proof.
  revert output. induction issues as [|issue issues IH]; intros output.
  - by rewrite append_empty_r.
  - cbn [fold_left]. rewrite IH, append_assoc. done.
Qed.

Lemma storyBlock_section baseUrl output entry :
  storyBlock baseUrl output entry = output +:+ storySection baseUrl entry.
Proof.
  unfold storyBlock, storySection. rewrite fold_bullets.
  by rewrite !append_assoc.
Qed.

Lemma fold_storyBlock baseUrl (storyMap : list (string * Group)) output :
  fold_left (storyBlock baseUrl) storyMap output
  = output +:+ storySections baseUrl storyMap.
Proof.
  revert output. induction storyMap as [|entry storyMap IH]; intros output.
  - by rewrite append_empty_r.
  - cbn [fold_left]. rewrite IH, storyBlock_section, append_assoc. done.
Qed.

Lemma render_specReport baseUrl a : render baseUrl a = specReport baseUrl a.
Proof.
  unfold render, specReport. rewrite fold_storyBlock.
  destruct a as [sm orph missing]. simpl.
  destruct orph as [|o orph], missing as [|m missing]; simpl length;
    rewrite ?bool_decide_eq_true_2 by lia;
    rewrite ?bool_decide_eq_false_2 by lia;
    unfold otherSection, missingSection;
    rewrite ?fold_bullets, ?append_assoc, ?append_empty_r; done.
Qed.

(** C6. The report is a function of the group map, the orphan list and the
    missing-child list (and the base URL of the links): it is the header
    followed by the story blocks, the orphan section and the missing-child
    section; a section without entries contributes no text at all, so no
    header; and with nothing in any of the three the report is the top
    header line and the blank line after it. *)
Theorem C6_rendering_is_deterministic_and_omits_empty_sections
    (baseUrl : string) :
  (∀ a a', storyMap a = storyMap a' → orphanIssues a = orphanIssues a' →
           missingChildIssues a = missingChildIssues a' →
           render baseUrl a = render baseUrl a')
  ∧ (∀ a, render baseUrl a
          = "### Related Jira Issues" +:+ nl +:+ nl
            +:+ storySections baseUrl (storyMap a)
            +:+ otherSection baseUrl (orphanIssues a)
            +:+ missingSection baseUrl (missingChildIssues a))
  ∧ storySections baseUrl [] = ""
  ∧ otherSection baseUrl [] = ""
  ∧ missingSection baseUrl [] = ""
  ∧ (∀ a, orphanIssues a = [] → missingChildIssues a = [] →
          render baseUrl a
          = "### Related Jira Issues" +:+ nl +:+ nl
            +:+ storySections baseUrl (storyMap a))
  ∧ render baseUrl
      {| storyMap := []; orphanIssues := []; missingChildIssues := [] |}
    = "### Related Jira Issues" +:+ nl +:+ nl.
Proof.
  split_and!; try done.
  - intros [sm orph missing] [sm' orph' missing']. simpl.
    by intros -> -> ->.
  - apply render_specReport.
  - intros a Horph Hmissing. rewrite render_specReport. unfold specReport.
    rewrite Horph, Hmissing. simpl. by rewrite !append_empty_r.
Qed.

(** ** Concrete runs

    The script evaluated on the worlds of [Sample], with the engine of
    [Fragment]. *)

(** Membership in a literal list, case by case. *)
Ltac each_member H :=
  repeat (apply elem_of_cons in H as [->|H]; [vm_compute; reflexivity|]);
  by apply elem_of_nil in H.

Ltac started := repeat split; vm_compute; congruence.

#[local] Existing Instance Fragment.engine.

Example extract_default_pattern :
  ticketIdsOf "RC-[^ ]*" ["RC-1 fix"; "RC-2 also RC-1"]
  = Resolved ["RC-1"; "RC-2"].
Proof. vm_compute; reflexivity. Qed.

(** An empty match is a match: [a*] on a message of two other characters
    matches the empty string three times, and the set holds it once. *)
Example extract_empty_matches : ticketIdsOf "a*" ["bb"] = Resolved [""].
Proof. vm_compute; reflexivity. Qed.

Example aggregate_degraded :
  aggregate Sample.degraded Sample.fetched Sample.ticketIds
    "https://jira.example" "dev@example.com" "secret"
  = ([Fetch "https://jira.example/rest/api/3/search?jql=parent=RC-10"],
     Resolved
       {| storyMap :=
            [("RC-10",
              {| story := {| story_key := "RC-10"; story_type := "Story";
                             story_title := "Login" |};
                 children := [issueOfFields "RC-1" Sample.RC1] |})];
          orphanIssues := [issueOfFields "RC-2" Sample.RC2];
          missingChildIssues :=
            [childOfHit (Sample.hit "RC-3" "Task" "Add logout button")] |}).
Proof. vm_compute; reflexivity. Qed.

Example run_degraded :
  run Sample.degraded
  = [ListCommits 7;
     Fetch "https://jira.example/rest/api/3/issue/RC-1";
     Fetch "https://jira.example/rest/api/3/issue/RC-2";
     Fetch "https://jira.example/rest/api/3/issue/RC-5";
     Warn "Unable to fetch info for RC-5";
     Fetch "https://jira.example/rest/api/3/search?jql=parent=RC-10";
     UpdatePR 7
       ("### Related Jira Issues" +:+ nl +:+ nl
        +:+ "#### Story [RC-10](https://jira.example/browse/RC-10): Login" +:+ nl
        +:+ "- [RC-1](https://jira.example/browse/RC-1): [Task] Add login form" +:+ nl
        +:+ nl
        +:+ "#### Other Issues" +:+ nl
        +:+ "- [RC-2](https://jira.example/browse/RC-2): [Bug] Fix typo" +:+ nl
        +:+ nl
        +:+ "#### Missing Child Issues" +:+ nl
        +:+ "The following child issues from related Stories are not included in this PR:" +:+ nl
        +:+ nl
        +:+ "- [RC-3](https://jira.example/browse/RC-3): [Task] Add logout button" +:+ nl)].
Proof. vm_compute; reflexivity. Qed.

(** An issue whose parent is not a Story is an orphan. *)
Example parent_of_other_type :
  parent (issueOfFields "RC-4" Sample.RC4) = None.
Proof. reflexivity. Qed.

Lemma C3_witness :
  ∃ regex,
    new_RegExp "RC-[^ ]*" "g" = Resolved regex
    ∧ ∃ ticketIds,
        ticketIdsOf "RC-[^ ]*" Sample.commits = Resolved ticketIds
        ∧ NoDup ticketIds
        ∧ list_to_set ticketIds = specIdentifierSet regex Sample.commits
        ∧ (Sample.commits = [] → ticketIds = [])
        ∧ ((∀ message, message ∈ Sample.commits →
              String_match message regex = None) → ticketIds = []).
Proof.
  eexists. split; [vm_compute; reflexivity|].
  apply (@C3_ticketIds_are_the_union_of_matches Fragment.engine).
  vm_compute; reflexivity.
Defined.

Lemma C10_witness :
  ∃ regex,
    new_RegExp "RC-[^ ]*" "g" = Resolved regex
    ∧ ∃ ids ids1 ids2,
        ticketIdsOf "RC-[^ ]*" (["RC-1 fix"] ++ ["RC-2 also RC-1"; "RC-5 wip"])
        = Resolved ids
        ∧ ticketIdsOf "RC-[^ ]*" ["RC-1 fix"] = Resolved ids1
        ∧ ticketIdsOf "RC-[^ ]*" ["RC-2 also RC-1"; "RC-5 wip"] = Resolved ids2
        ∧ list_to_set ids =@{gset string} list_to_set ids1 ∪ list_to_set ids2.
Proof.
  eexists. split; [vm_compute; reflexivity|].
  eapply (@C10_extraction_distributes_over_concatenation Fragment.engine).
  vm_compute; reflexivity.
Defined.

Lemma C1_witness :
  ∃ t a,
    aggregate Sample.degraded Sample.fetched Sample.ticketIds
      "https://jira.example" "dev@example.com" "secret" = (t, Resolved a)
    ∧ ∀ child, child ∈ missingChildIssues a →
        (∃ storyKey issue p,
            issue ∈ Sample.fetched ∧ parent issue = Some p
            ∧ story_key p = storyKey
            ∧ child ∈ childrenReported Sample.degraded storyKey)
        ∧ key child ∉ Sample.ticketIds.
Proof.
  eexists _, _. split; [vm_compute; reflexivity|].
  eapply (C1_missing_children_come_from_surfaced_parents Sample.degraded
            "https://jira.example" "dev@example.com" "secret").
  vm_compute; reflexivity.
Defined.

Lemma C4_witness :
  (∀ k, k ∈ Sample.ticketIds →
        rejects (issueResponse Sample.degraded k) = false)
  ∧ ∃ t jiraIssuesInfo,
      Promise_all (arrival Sample.degraded) Sample.ticketIds
        (λ pattern, getJiraIssueInfo Sample.degraded pattern
                      "https://jira.example" "dev@example.com" "secret")
      = (t, Resolved jiraIssuesInfo)
      ∧ filter_Boolean jiraIssuesInfo
        = omap (issueReported Sample.degraded) Sample.ticketIds
      ∧ (∀ k, k ∈ Sample.ticketIds →
           issueResponse Sample.degraded k = NonSuccess →
           Warn ("Unable to fetch info for " +:+ k) ∈ t
           ∧ settled (getJiraIssueInfo Sample.degraded k
                        "https://jira.example" "dev@example.com" "secret")
             = ([Warn ("Unable to fetch info for " +:+ k)], Resolved None)
           ∧ ∀ issue, issue ∈ filter_Boolean jiraIssuesInfo → key issue ≠ k)
      ∧ (∀ k data, k ∈ Sample.ticketIds →
           issueResponse Sample.degraded k = Success (Resolved data) →
           issueOfFields k data ∈ filter_Boolean jiraIssuesInfo).
Proof.
  assert (∀ k, k ∈ Sample.ticketIds →
               rejects (issueResponse Sample.degraded k) = false) as Hok.
  { intros k Hk. unfold Sample.ticketIds in Hk. each_member Hk. }
  split; [exact Hok|].
  exact (C4_refused_lookup_is_dropped_with_a_warning Sample.degraded
           "https://jira.example" "dev@example.com" "secret"
           Sample.ticketIds Hok).
Defined.

Lemma C5_witness :
  Started Sample.noTickets 7 ["Initial commit"; "Bump version"]
  ∧ ticketIdsOf (jiraTicketPatternOf Sample.noTickets)
      ["Initial commit"; "Bump version"] = Resolved []
  ∧ run Sample.noTickets
    = [ListCommits 7; Notice "No Jira ticket IDs found in commit messages"]
  ∧ (∀ url, Fetch url ∉ run Sample.noTickets)
  ∧ (∀ msg, SetFailed msg ∉ run Sample.noTickets)
  ∧ (∀ n body, UpdatePR n body ∉ run Sample.noTickets).
Proof.
  split; [started|]. split; [vm_compute; reflexivity|].
  apply (@C5_no_tickets_ends_with_a_notice Fragment.engine Sample.noTickets 7
           ["Initial commit"; "Bump version"]);
    [started|vm_compute; reflexivity].
Defined.

Lemma C7_witness :
  (∀ k, k ∈ Map_keys (storyMapOf Sample.fetched) →
        rejects (searchResponse Sample.searchRefused k) = false)
  ∧ ∃ t a,
      aggregate Sample.searchRefused Sample.fetched Sample.ticketIds
        "https://jira.example" "dev@example.com" "secret" = (t, Resolved a)
      ∧ missingChildIssues a
        = mjoin ((λ k, filter (λ child, key child ∉ Sample.ticketIds)
                         (childrenReported Sample.searchRefused k))
                   <$> arrival Sample.searchRefused
                         (Map_keys (storyMapOf Sample.fetched)))
      ∧ (∀ k, k ∈ Map_keys (storyMapOf Sample.fetched) →
           searchResponse Sample.searchRefused k = NonSuccess →
           Warn ("Unable to fetch children for " +:+ k) ∈ t
           ∧ settled (getStoryChildren Sample.searchRefused k
                        "https://jira.example" "dev@example.com" "secret")
             = ([Warn ("Unable to fetch children for " +:+ k)], Resolved [])
           ∧ childrenReported Sample.searchRefused k = [])
      ∧ (∀ k child, k ∈ Map_keys (storyMapOf Sample.fetched) →
           child ∈ childrenReported Sample.searchRefused k →
           key child ∉ Sample.ticketIds →
           child ∈ missingChildIssues a).
Proof.
  assert (∀ k, k ∈ Map_keys (storyMapOf Sample.fetched) →
               rejects (searchResponse Sample.searchRefused k) = false)
    as Hok.
  { intros k Hk. vm_compute in Hk. each_member Hk. }
  split; [exact Hok|].
  exact (C7_refused_search_counts_as_no_children Sample.searchRefused
           "https://jira.example" "dev@example.com" "secret"
           Sample.fetched Sample.ticketIds Hok).
Defined.

Lemma C8_witness :
  Started Sample.badPattern 7 ("RC-1 fix" :: ["RC-2 also RC-1"; "RC-5 wip"])
  ∧ new_RegExp (jiraTicketPatternOf Sample.badPattern) "g"
    = Rejected "Invalid regular expression: /[/: Unterminated character class"
  ∧ run Sample.badPattern
    = [ListCommits 7;
       SetFailed "Invalid regular expression: /[/: Unterminated character class"].
Proof.
  split; [started|]. split; [vm_compute; reflexivity|].
  apply (@C8_invalid_pattern_fails_when_there_is_a_commit Fragment.engine
           Sample.badPattern 7 "RC-1 fix" ["RC-2 also RC-1"; "RC-5 wip"]);
    [started|vm_compute; reflexivity].
Defined.

Lemma C9_witness :
  Started Sample.degraded 7 Sample.commits
  ∧ ticketIdsOf (jiraTicketPatternOf Sample.degraded)
      Sample.commits = Resolved Sample.ticketIds
  ∧ Sample.ticketIds ≠ []
  ∧ issueResponse Sample.degraded "RC-5" = NonSuccess
  ∧ ∃ t jiraIssuesInfo t' a,
      Promise_all (arrival Sample.degraded) Sample.ticketIds
        (λ pattern,
           getJiraIssueInfo Sample.degraded pattern
             (getInput Sample.degraded "jira-base-url")
             (getInput Sample.degraded "jira-email")
             (getInput Sample.degraded "jira-api-token"))
      = (t, Resolved jiraIssuesInfo)
      ∧ aggregate Sample.degraded (filter_Boolean jiraIssuesInfo)
          Sample.ticketIds
          (getInput Sample.degraded "jira-base-url")
          (getInput Sample.degraded "jira-email")
          (getInput Sample.degraded "jira-api-token")
        = (t', Resolved a)
      ∧ UpdatePR 7 (render (getInput Sample.degraded "jira-base-url") a)
        ∈ run Sample.degraded
      ∧ (∀ k child, k ∈ Sample.ticketIds → child ∈ missingChildIssues a →
           key child ≠ k)
      ∧ (∀ k issue, k ∈ Sample.ticketIds →
           issueResponse Sample.degraded k = NonSuccess →
           issue ∈ orphanIssues a ++ allChildren (storyMap a) →
           key issue ≠ k).
Proof.
  split; [started|]. split; [vm_compute; reflexivity|].
  split; [discriminate|]. split; [vm_compute; reflexivity|].
  eexists _, _, _, _.
  split; [vm_compute; reflexivity|]. split; [vm_compute; reflexivity|].
  eapply (@C9_extracted_keys_are_never_missing Fragment.engine
            Sample.degraded 7 Sample.commits Sample.ticketIds);
    [started|vm_compute; reflexivity|discriminate
    |vm_compute; reflexivity|vm_compute; reflexivity].
Defined.

(** C4, as the claim states it, fails when the tracker cannot be reached for
    one key: [fetch] throws, no warning is given, and the run is marked
    failed without the description being updated. *)
Lemma C4_counterexample_unreachable_tracker :
  ticketIdsOf (jiraTicketPatternOf Sample.unreachable)
    Sample.commits = Resolved ["RC-1"; "RC-2"; "RC-5"]
  ∧ (∃ msg, issueResponse Sample.unreachable "RC-5" = FetchError msg)
  ∧ run Sample.unreachable
    = [ListCommits 7;
       Fetch "https://jira.example/rest/api/3/issue/RC-1";
       Fetch "https://jira.example/rest/api/3/issue/RC-2";
       Fetch "https://jira.example/rest/api/3/issue/RC-5";
       SetFailed "request to https://jira.example/rest/api/3/issue/RC-5 failed, reason: connect ECONNREFUSED"]
  ∧ (Warn "Unable to fetch info for RC-5" ∉ run Sample.unreachable)
  ∧ (∀ n body, UpdatePR n body ∉ run Sample.unreachable).
Proof.
  split; [vm_compute; reflexivity|]. split; [eexists; vm_compute; reflexivity|].
  assert (run Sample.unreachable
          = [ListCommits 7;
             Fetch "https://jira.example/rest/api/3/issue/RC-1";
             Fetch "https://jira.example/rest/api/3/issue/RC-2";
             Fetch "https://jira.example/rest/api/3/issue/RC-5";
             SetFailed "request to https://jira.example/rest/api/3/issue/RC-5 failed, reason: connect ECONNREFUSED"])
    as ->; [vm_compute; reflexivity|].
  split_and!; [done|..]; intros; rewrite !elem_of_cons, elem_of_nil;
    naive_solver.
Qed.

(** C7, as the claim states it, fails when the search for the children of a
    Story cannot be sent: the aggregation is rejected, no warning is given
    and no description is written. *)
Lemma C7_counterexample_unreachable_search :
  "RC-10" ∈ Map_keys (storyMapOf Sample.fetched)
  ∧ (∃ msg, searchResponse Sample.searchUnreachable "RC-10" = FetchError msg)
  ∧ (∃ t msg,
       aggregate Sample.searchUnreachable Sample.fetched Sample.ticketIds
         "https://jira.example" "dev@example.com" "secret"
       = (t, Rejected msg)
       ∧ Warn "Unable to fetch children for RC-10" ∉ t)
  ∧ run Sample.searchUnreachable
    = [ListCommits 7;
       Fetch "https://jira.example/rest/api/3/issue/RC-1";
       Fetch "https://jira.example/rest/api/3/issue/RC-2";
       Fetch "https://jira.example/rest/api/3/issue/RC-5";
       Warn "Unable to fetch info for RC-5";
       Fetch "https://jira.example/rest/api/3/search?jql=parent=RC-10";
       SetFailed "request to https://jira.example/rest/api/3/search?jql=parent=RC-10 failed, reason: connect ECONNREFUSED"].
Proof.
  split; [vm_compute; apply list_elem_of_here|].
  split; [eexists; vm_compute; reflexivity|].
  split; [|vm_compute; reflexivity].
  eexists _, _. split; [vm_compute; reflexivity|].
  rewrite !elem_of_cons, elem_of_nil. naive_solver.
Qed.

(** C8, as the claim states it, fails for a pull request without commits:
    the pattern is compiled once per commit, so with no commit it is never
    compiled and the run ends with the notice. *)
Lemma C8_counterexample_no_commits :
  (∃ msg, @new_RegExp Fragment.engine
            (jiraTicketPatternOf Sample.badPatternNoCommits) "g"
          = Rejected msg)
  ∧ listCommits Sample.badPatternNoCommits 7 = Resolved []
  ∧ run Sample.badPatternNoCommits
    = [ListCommits 7; Notice "No Jira ticket IDs found in commit messages"]
  ∧ (∀ msg, SetFailed msg ∉ run Sample.badPatternNoCommits).
Proof.
  split; [eexists; vm_compute; reflexivity|].
  split; [reflexivity|].
  assert (run Sample.badPatternNoCommits
          = [ListCommits 7;
             Notice "No Jira ticket IDs found in commit messages"]) as ->;
    [vm_compute; reflexivity|].
  split; [done|]. intros msg. rewrite !elem_of_cons, elem_of_nil. naive_solver.
Qed.

(** * Further properties of the script *)

(** ** What a trace can contain *)

Lemma bind_trace {A B} (P : Event → Prop) (m : M A) (f : A → M B) :
  Forall P m.1 → (∀ a, Forall P (f a).1) → Forall P (bind m f).1.
Proof.
  destruct m as [t [a|msg]]; simpl; intros Ht Hf; [|done].
  specialize (Hf a). destruct (f a) as [t' r]. simpl in *.
  by apply Forall_app.
Qed.

Lemma sequenceM_trace {A} (P : Event → Prop) (cs : list (M A)) :
  Forall (λ c, Forall P c.1) cs → Forall P (sequenceM cs).1.
Proof.
  induction 1 as [|c cs Hc Hcs IH]; simpl; [constructor|].
  apply bind_trace; [done|]. intros a.
  apply bind_trace; [done|]. intros r. constructor.
Qed.

Lemma settleAll_trace {A} (P : Event → Prop) arrival keys
    (task : string → Async A) :
  (∀ k, Forall P (issued (task k))) →
  (∀ k, Forall P (settled (task k)).1) →
  Forall P (settleAll arrival keys task).1.
Proof.
  intros Hissued Hsettled. unfold settleAll. apply bind_trace; simpl.
  - apply Forall_forall. intros e (t & He & Ht)%list_elem_of_join.
    apply list_elem_of_fmap in Ht as (k & -> & _).
    by eapply Forall_forall in He.
  - intros _. apply sequenceM_trace, Forall_fmap, Forall_forall.
    intros k _. apply Hsettled.
Qed.

Lemma Promise_all_trace {A} (P : Event → Prop) arrival keys
    (task : string → Async A) :
  (∀ k, Forall P (issued (task k))) →
  (∀ k, Forall P (settled (task k)).1) →
  Forall P (Promise_all arrival keys task).1.
Proof.
  intros Hissued Hsettled. unfold Promise_all.
  apply bind_trace; [by apply settleAll_trace|]. intros _. constructor.
Qed.

Lemma lookups_trace w baseUrl email apiToken ticketIds :
  Forall trackerEvent
    (Promise_all (arrival w) ticketIds
       (λ pattern, getJiraIssueInfo w pattern baseUrl email apiToken)).1.
Proof.
  apply Promise_all_trace; intros k; unfold getJiraIssueInfo; simpl.
  - by repeat constructor.
  - destruct (issueResponse w k) as [msg| |[data|msg]]; simpl;
      by repeat constructor.
Qed.

Lemma aggregate_trace w jiraIssuesInfo ticketIds baseUrl email apiToken :
  Forall trackerEvent
    (aggregate w jiraIssuesInfo ticketIds baseUrl email apiToken).1.
Proof.
  unfold aggregate. destruct (groupIssues jiraIssuesInfo) as [sm orph].
  apply bind_trace; [|intros; constructor].
  apply settleAll_trace; intros k; unfold missingChildrenOf, getStoryChildren;
    simpl.
  - by repeat constructor.
  - destruct (searchResponse w k) as [msg| |[issues|msg]]; simpl;
      by repeat constructor.
Qed.

Lemma caught_bind {A} (m : M A) (k : A → M unit) :
  caught (bind m k)
  = match m with
    | (t, Resolved a) => t ++ caught (k a)
    | (t, Rejected msg) => t ++ [SetFailed msg]
    end.
Proof.
  destruct m as [t [a|msg]]; [|done]. rewrite bind_resolved.
  unfold caught. destruct (k a) as [t' [[]|msg]]; simpl; [done|].
  by rewrite (assoc_L (++)).
Qed.

Section Shape.
Context {engine : RegexEngine}.

Lemma run_caught w : run w = caught (runTry w).
Proof. done. Qed.

(** Every run goes one of the ways of [RunShape]. *)
Lemma run_shape w : RunShape w (run w).
Proof.
  rewrite run_caught. unfold runTry, getRequiredInput.
  destruct (decide (getInput w "github-token" = ""));
    [apply ContextFailure|rewrite bind_ret_l].
  destruct (decide (getInput w "jira-base-url" = ""));
    [apply ContextFailure|rewrite bind_ret_l].
  destruct (decide (getInput w "jira-email" = ""));
    [apply ContextFailure|rewrite bind_ret_l].
  destruct (decide (getInput w "jira-api-token" = ""));
    [apply ContextFailure|rewrite bind_ret_l].
  destruct (pull_request w) as [[[|pr]|]|] eqn:Hpr; try apply ContextFailure.
  rewrite caught_bind. unfold emit at 1. cbn [app].
  rewrite caught_bind. unfold liftOutcome at 1.
  destruct (listCommits w (S pr)) as [commits|msg];
    [|apply (Failure w (S pr) [] msg); constructor].
  cbn [app]. rewrite caught_bind. unfold liftOutcome at 1.
  destruct (ticketIdsOf (jiraTicketPatternOf w) commits) as [ticketIds|msg];
    [|apply (Failure w (S pr) [] msg); constructor].
  cbn [app]. case_bool_decide; [apply NoTickets|].
  rewrite caught_bind.
  pose proof (lookups_trace w (getInput w "jira-base-url")
                (getInput w "jira-email") (getInput w "jira-api-token")
                ticketIds) as Hlook.
  destruct (Promise_all _ _ _) as [t [jiraIssuesInfo|msg]]; simpl in Hlook;
    [|by apply (Failure w (S pr) t msg)].
  unfold generateStructuredOutput.
  pose proof (aggregate_trace w (filter_Boolean jiraIssuesInfo) ticketIds
                (getInput w "jira-base-url") (getInput w "jira-email")
                (getInput w "jira-api-token")) as Hagg.
  destruct (aggregate _ _ _ _ _ _) as [t' [a|msg]]; simpl in Hagg.
  - rewrite bind_resolved. cbn [ret fst snd]. rewrite app_nil_r.
    rewrite caught_bind, caught_bind. unfold emit, liftOutcome.
    destruct (updateResult w) as [[]|msg]; simpl.
    + rewrite (assoc_L (++)).
      apply (Updated w (S pr) (t ++ t')); [by apply Forall_app|done..].
    + rewrite (assoc_L (++)).
      apply (UpdateRejected w (S pr) (t ++ t')); [by apply Forall_app|done..].
  - rewrite bind_rejected, caught_bind.
    rewrite (assoc_L (++)).
    apply (Failure w (S pr) (t ++ t') msg). by apply Forall_app.
Qed.

End Shape.

(** ** What no run does *)

Lemma tracker_elem_of (t : list Event) (e : Event) :
  Forall trackerEvent t → e ∈ t → trackerEvent e.
Proof. intros Ht He. by eapply Forall_forall in Ht. Qed.

(** Membership of an event in a trace of known shape. *)
Ltac trace_members H :=
  repeat first
    [ apply elem_of_cons in H as [H|H]
    | apply elem_of_app in H as [H|H]
    | apply elem_of_nil in H ];
  try done.

Section Safety.
Context {engine : RegexEngine}.


(** X2. A description update happens at most once per run, for the pull
    request of the event, after the commits were listed and after all
    traffic with the tracker; nothing follows it but the failure mark when
    the update itself is refused. *)
Theorem run_updates_once_after_the_tracker w prNumber body :
  UpdatePR prNumber body ∈ run w →
  pull_request w = Some (Some prNumber) ∧ prNumber ≠ 0
  ∧ ∃ t after,
      run w = ListCommits prNumber :: t ++ UpdatePR prNumber body :: after
      ∧ Forall trackerEvent t
      ∧ (after = [] ∨ ∃ msg, after = [SetFailed msg]).
Proof.
  intros Hin. pose proof (run_shape w) as Hshape.
  inversion Hshape as [m Heq|pr Heq|pr t m Ht Heq|pr t b Ht Hpr Hnz Heq
                      |pr t b m Ht Hpr Hnz Heq];
    rewrite <- Heq in *; clear Heq Hshape.
  - trace_members Hin.
  - trace_members Hin.
  - trace_members Hin. by apply (tracker_elem_of t) in Hin.
  - assert (prNumber = pr ∧ body = b) as [-> ->].
    { trace_members Hin; [by apply (tracker_elem_of t) in Hin|].
      by injection Hin as -> ->. }
    split_and!; [done..|]. exists t, []. auto.
  - assert (prNumber = pr ∧ body = b) as [-> ->].
    { trace_members Hin; [by apply (tracker_elem_of t) in Hin|].
      by injection Hin as -> ->. }
    split_and!; [done..|]. exists t, [SetFailed m]. eauto.
Qed.

(** X3. The no-ticket notice is only given by a run that did nothing but
    list the commits: no request to the tracker, no update, no failure. *)
Theorem run_notice_stands_alone w msg :
  Notice msg ∈ run w →
  ∃ prNumber,
    run w = [ListCommits prNumber;
             Notice "No Jira ticket IDs found in commit messages"].
Proof.
  intros Hin. pose proof (run_shape w) as Hshape.
  inversion Hshape as [m Heq|pr Heq|pr t m Ht Heq|pr t b Ht Hpr Hnz Heq
                      |pr t b m Ht Hpr Hnz Heq];
    rewrite <- Heq in *; clear Heq Hshape;
    [trace_members Hin|by exists pr|..];
    trace_members Hin; by apply (tracker_elem_of t) in Hin.
Qed.


End Safety.

(** ** The checks before the commits are listed *)

Lemma firstMissingInput_None w :
  firstMissingInput w = None →
  getInput w "github-token" ≠ "" ∧ getInput w "jira-base-url" ≠ ""
  ∧ getInput w "jira-email" ≠ "" ∧ getInput w "jira-api-token" ≠ "".
Proof.
  unfold firstMissingInput, requiredInputs. intros Hnone.
  apply head_None in Hnone.
  split_and!; intros Hempty;
    eapply (filter_nil_not_elem_of _ _ _ Hnone Hempty);
    repeat first [apply list_elem_of_here | apply list_elem_of_further].
Qed.

Section Checks.
Context {engine : RegexEngine}.


(** X6. With all inputs set, a run outside a pull-request event, or for a
    pull request whose number is absent or zero, consists of the matching
    failure mark alone: the commits are not listed. *)
Theorem run_outside_a_pull_request w :
  firstMissingInput w = None →
  (∀ n, pull_request w ≠ Some (Some (S n))) →
  run w
  = [SetFailed
       match pull_request w with
       | None => "This action can only be run on pull request events"
       | Some _ => "Could not get pull request number from context"
       end].
Proof.
  intros (Htoken & Hurl & Hemail & Hapi)%firstMissingInput_None Hpr.
  unfold run, runTry.
  rewrite !getRequiredInput_set, !bind_ret_l by done.
  destruct (pull_request w) as [[[|n]|]|]; try done. by destruct (Hpr n).
Qed.

(** X7. When the commits cannot be listed, the run fails with the message of
    that rejection, right after the attempt. *)
Theorem run_fails_when_commits_cannot_be_listed w prNumber msg :
  firstMissingInput w = None →
  pull_request w = Some (Some prNumber) → prNumber ≠ 0 →
  listCommits w prNumber = Rejected msg →
  run w = [ListCommits prNumber; SetFailed msg].
Proof.
  intros (Htoken & Hurl & Hemail & Hapi)%firstMissingInput_None Hpr Hnz Hlist.
  unfold run, runTry.
  rewrite !getRequiredInput_set, !bind_ret_l by done.
  rewrite Hpr. destruct prNumber as [|n]; [done|]. by rewrite Hlist.
Qed.



End Checks.

(** ** The run that completes *)

Lemma mjoin_singletons {A B} (f : A → B) (l : list A) :
  mjoin ((λ x, [f x]) <$> l) = f <$> l.
Proof. induction l as [|x l IH]; csimpl; [done|]. by rewrite IH. Qed.

Section Completed.
Context {engine : RegexEngine}.

(** X10. When no lookup and no search throws, the run is exactly: list the
    commits; one lookup per ticket in the order of [ticketIds]; the warnings
    of the refused lookups as the answers arrive; one search per Story key
    in the order of the groups; the warnings of the refused searches; then
    the update of the description with the report rendered from the
    grouping of the issues found and the uncommitted children reported,
    followed by the failure mark only if the update is refused. *)
Theorem run_completes_with_one_update w prNumber commits ticketIds :
  Started w prNumber commits →
  ticketIdsOf (jiraTicketPatternOf w) commits = Resolved ticketIds →
  ticketIds ≠ [] →
  (∀ k, k ∈ ticketIds → rejects (issueResponse w k) = false) →
  (∀ k, k ∈ Map_keys (storyMapOf (omap (issueReported w) ticketIds)) →
        rejects (searchResponse w k) = false) →
  let baseUrl := getInput w "jira-base-url" in
  let fetched := omap (issueReported w) ticketIds in
  let storyKeys := Map_keys (storyMapOf fetched) in
  run w
  = ListCommits prNumber
    :: ((λ k, Fetch (baseUrl +:+ "/rest/api/3/issue/" +:+ k)) <$> ticketIds)
    ++ mjoin (lookupWarnings w <$> arrival w ticketIds)
    ++ ((λ k, Fetch (baseUrl +:+ "/rest/api/3/search?jql=parent=" +:+ k))
          <$> storyKeys)
    ++ mjoin (searchWarnings w <$> arrival w storyKeys)
    ++ UpdatePR prNumber
         (render baseUrl
            {| storyMap := storyMapOf fetched;
               orphanIssues := orphanIssuesOf fetched;
               missingChildIssues :=
                 mjoin ((λ k, filter (λ child, key child ∉ ticketIds)
                                (childrenReported w k))
                          <$> arrival w storyKeys) |})
       :: match updateResult w with
          | Resolved _ => []
          | Rejected msg => [SetFailed msg]
          end.
Proof.
  intros Hstarted Hids Hne Hlook Hsearch baseUrl fetched storyKeys.
  pose proof (lookups_resolved w baseUrl (getInput w "jira-email")
                (getInput w "jira-api-token") ticketIds Hlook) as Hall.
  pose proof (aggregate_resolved w baseUrl (getInput w "jira-email")
                (getInput w "jira-api-token") fetched ticketIds Hsearch)
    as Hagg.
  unfold fetched in Hagg at 1. rewrite <- filter_Boolean_reported in Hagg.
  rewrite (run_described _ _ _ _ _ _ _ _ Hstarted Hids Hne Hall Hagg).
  unfold getJiraIssueInfo, getStoryChildren. cbn [issued].
  rewrite !mjoin_singletons. fold storyKeys.
  by rewrite <- !(assoc_L (++)).
Qed.

End Completed.

(** ** More on extraction *)

Lemma fold_Set_add_known (xs acc : list string) :
  (∀ x, x ∈ xs → x ∈ acc) → fold_left Set_add xs acc = acc.
Proof.
  induction xs as [|x xs IH]; intros Hknown; simpl; [done|].
  unfold Set_add at 2, Set_has.
  rewrite bool_decide_eq_true_2 by apply Hknown, list_elem_of_here.
  apply IH. intros y Hy. by apply Hknown, list_elem_of_further.
Qed.

Lemma new_Set_app_known (xs ys : list string) :
  (∀ y, y ∈ ys → y ∈ xs) → new_Set (xs ++ ys) = new_Set xs.
Proof.
  intros Hknown. unfold new_Set. rewrite fold_left_app.
  apply fold_Set_add_known. intros y Hy.
  by apply elem_of_fold_Set_add; right; apply Hknown.
Qed.

Lemma new_Set_nil_inv (xs : list string) : new_Set xs = [] → xs = [].
Proof.
  intros Hnil. destruct xs as [|x xs]; [done|].
  assert (x ∈ new_Set (x :: xs)) as Hx
    by apply elem_of_new_Set, list_elem_of_here.
  rewrite Hnil in Hx. by apply elem_of_nil in Hx.
Qed.

Section MoreExtraction.
Context {engine : RegexEngine}.

(** X11. Commits whose messages repeat messages already seen change
    nothing: extraction from the longer list gives the same identifiers in
    the same order, and fails the same way for a pattern that does not
    compile. *)
Theorem extraction_ignores_repeated_messages pattern commits more :
  (∀ message, message ∈ more → message ∈ commits) →
  ticketIdsOf pattern (commits ++ more) = ticketIdsOf pattern commits.
Proof.
  intros Hknown.
  destruct (new_RegExp pattern "g") as [regex|msg] eqn:Hre.
  - rewrite !(ticketIdsOf_valid _ regex) by done. f_equal.
    rewrite fmap_app, join_app. apply new_Set_app_known.
    intros y (ys & Hy & Hys)%list_elem_of_join.
    apply list_elem_of_fmap in Hys as (m & -> & Hm).
    apply list_elem_of_join. eexists. split; [exact Hy|].
    apply (list_elem_of_fmap_2
             (λ message, default [] (String_match message regex))).
    by apply Hknown.
  - destruct commits as [|m commits].
    + destruct more as [|m' more]; [done|].
      pose proof (Hknown m' (list_elem_of_here _ _)) as Hin.
      by apply elem_of_nil in Hin.
    + simpl. by rewrite !(ticketIdsOf_invalid _ msg).
Qed.

(** X12. For a pattern that compiles, the run takes the no-ticket exit
    exactly when no commit message has a match: the extracted list is empty
    if and only if every message's match array is absent or empty. *)
Theorem no_ticket_iff_no_match pattern regex commits :
  new_RegExp pattern "g" = Resolved regex →
  ticketIdsOf pattern commits = Resolved []
  ↔ ∀ message, message ∈ commits →
      String_match message regex = None
      ∨ String_match message regex = Some [].
Proof.
  intros Hre. rewrite (ticketIdsOf_valid _ _ _ Hre). split.
  - intros [= Hnil%new_Set_nil_inv] m Hm.
    destruct (String_match m regex) as [[|x xs]|] eqn:Hmatch; auto.
    assert (x ∈ mjoin ((λ message, default [] (String_match message regex))
                         <$> commits)) as Hx.
    { apply list_elem_of_join. exists (x :: xs).
      split; [apply list_elem_of_here|].
      apply list_elem_of_fmap. exists m. by rewrite Hmatch. }
    rewrite Hnil in Hx. by apply elem_of_nil in Hx.
  - intros Hnone. rewrite mjoin_all_nil; [done|].
    intros m Hm. by destruct (Hnone m Hm) as [-> | ->].
Qed.

End MoreExtraction.

(** ** More on grouping *)

Lemma groupIssue_storyAt acc issue k :
  storyAt (groupIssue acc issue).1 k
  = match storyAt acc.1 k with
    | Some s => Some s
    | None => if decide (parentKey issue = Some k) then parent issue else None
    end.
Proof.
  destruct acc as [sm orph]. unfold groupIssue, storyAt, parentKey.
  destruct (parent issue) as [p|] eqn:Hp; simpl.
  - rewrite Map_get_mutate. unfold Map_has.
    destruct (decide (story_key p = k)) as [<-|Hne].
    + destruct (decide (Some (story_key p) = Some (story_key p))); [|done].
      case_bool_decide as Hin.
      * destruct (Map_get sm (story_key p)) eqn:Hget; [done|].
        by apply Map_get_None in Hget.
      * rewrite Map_set_fresh by (by apply bool_decide_eq_false).
        rewrite Map_get_snoc.
        apply Map_get_None in Hin as ->. by rewrite decide_True.
    + destruct (decide (Some (story_key p) = Some k)); [congruence|].
      case_bool_decide as Hin; [by destruct (Map_get sm k)|].
      rewrite Map_set_fresh by (by apply bool_decide_eq_false).
      rewrite Map_get_snoc. destruct (Map_get sm k); [done|].
      by rewrite decide_False.
  - destruct (Map_get sm k); [done|].
    by destruct (decide (None = Some k)).
Qed.

Lemma fold_groupIssue_storyAt issues acc k :
  storyAt (fold_left groupIssue issues acc).1 k
  = match storyAt acc.1 k with
    | Some s => Some s
    | None => head (filter (λ i, parentKey i = Some k) issues) ≫= parent
    end.
Proof.
  revert acc. induction issues as [|issue issues IH]; intros acc; simpl.
  - by destruct (storyAt acc.1 k).
  - rewrite IH, groupIssue_storyAt. destruct (storyAt acc.1 k); [done|].
    rewrite filter_cons. destruct (decide (parentKey issue = Some k)) as [Hk|];
      [|done].
    simpl. unfold parentKey in Hk. by destruct (parent issue).
Qed.

(** X13. The groups come in the order in which their parent key first
    occurs among the fetched issues, each key once; the Story shown for a
    group is the parent reported with the group's first child, and its key
    is the key of the group. *)
Theorem groups_follow_first_occurrence (jiraIssuesInfo : list Issue) :
  Map_keys (storyMapOf jiraIssuesInfo)
  = new_Set (omap parentKey jiraIssuesInfo)
  ∧ ∀ k g, (k, g) ∈ storyMapOf jiraIssuesInfo →
      head (children g) ≫= parent = Some (story g)
      ∧ story_key (story g) = k.
Proof.
  split; [apply groupIssues_keys|]. intros k g Hin.
  destruct (fold_groupIssue jiraIssuesInfo ([], [])) as (Hk & _ & Hc & _).
  fold (groupIssues jiraIssuesInfo) in Hk, Hc. simpl in Hk, Hc.
  assert (Map_get (groupIssues jiraIssuesInfo).1 k = Some g) as Hget.
  { apply Map_get_elem_of; [|done]. rewrite Hk. apply NoDup_new_Set. }
  pose proof (fold_groupIssue_storyAt jiraIssuesInfo ([], []) k) as Hs.
  fold (groupIssues jiraIssuesInfo) in Hs.
  unfold storyAt in Hs. rewrite Hget in Hs. simpl in Hs.
  specialize (Hc k). unfold childrenAt in Hc. rewrite Hget in Hc.
  simpl in Hc. rewrite Hc. split; [done|].
  destruct (filter _ jiraIssuesInfo) as [|first rest] eqn:Hfilter; [done|].
  assert (first ∈ filter (λ i, parentKey i = Some k) jiraIssuesInfo) as Hfirst
    by (rewrite Hfilter; apply list_elem_of_here).
  apply list_elem_of_filter in Hfirst as [Hkey _].
  simpl in Hs. unfold parentKey in Hkey. rewrite <- Hs in Hkey.
  by injection Hkey.
Qed.

(** ** More on the working set *)

Section WorkingSet.
Context (w : World).

Lemma fetched_keys (ticketIds : list string) :
  key <$> omap (issueReported w) ticketIds
  = filter (λ k, is_Some (issueReported w k)) ticketIds.
Proof.
  induction ticketIds as [|k ks IH]; csimpl; [done|].
  rewrite filter_cons. destruct (issueReported w k) as [issue|] eqn:Hrep.
  - rewrite decide_True by done. csimpl. rewrite IH.
    by apply issueReported_Some in Hrep as [-> _].
  - rewrite decide_False by (by intros [? ?]). done.
Qed.

(** X14. No ticket is shown twice among the groups and the other issues:
    the keys of the issues in the orphan list and in all children lists are
    pairwise distinct and are keys of [ticketIds], as long as [ticketIds]
    itself has no repetition (which extraction ensures). *)
Theorem each_ticket_is_reported_at_most_once (ticketIds : list string) :
  NoDup ticketIds →
  let fetched := omap (issueReported w) ticketIds in
  NoDup (key <$> (orphanIssuesOf fetched ++ allChildren (storyMapOf fetched)))
  ∧ ∀ issue,
      issue ∈ orphanIssuesOf fetched ++ allChildren (storyMapOf fetched) →
      key issue ∈ ticketIds ∧ issueReported w (key issue) = Some issue.
Proof.
  intros Hnd fetched.
  destruct (fold_groupIssue fetched ([], [])) as (_ & _ & _ & Hperm).
  fold (groupIssues fetched) in Hperm. simpl in Hperm.
  unfold orphanIssuesOf, storyMapOf. split.
  - rewrite Hperm. unfold fetched. rewrite fetched_keys.
    by apply NoDup_filter.
  - intros issue Hin. rewrite Hperm in Hin.
    apply list_elem_of_omap in Hin as (k & Hk & Hrep).
    pose proof Hrep as [<- _]%issueReported_Some. done.
Qed.

(** X15. When the joint lookup resolves, it resolves with one entry per
    ticket, in the order of [ticketIds] whatever the order of arrival: the
    issue the tracker reported, or nothing for a refused lookup. Each issue
    found carries the key it was asked under, and a parent reference, when
    present, has type Story. *)
Theorem lookups_resolve_in_ticket_order
    (baseUrl email apiToken : string) (ticketIds : list string) t
    (jiraIssuesInfo : list (option Issue)) :
  Promise_all (arrival w) ticketIds
    (λ pattern, getJiraIssueInfo w pattern baseUrl email apiToken)
  = (t, Resolved jiraIssuesInfo) →
  jiraIssuesInfo = issueReported w <$> ticketIds
  ∧ length jiraIssuesInfo = length ticketIds
  ∧ ∀ i k issue,
      ticketIds !! i = Some k → jiraIssuesInfo !! i = Some (Some issue) →
      key issue = k
      ∧ ∀ p, parent issue = Some p → story_type p = "Story".
Proof.
  intros Hall.
  pose proof (lookups_inv _ _ _ _ _ _ _ Hall) as Hlook.
  rewrite (lookups_resolved _ _ _ _ _ Hlook) in Hall.
  injection Hall as _ <-. split_and!; [done|by rewrite length_fmap|].
  intros i k issue Hk Hissue. rewrite list_lookup_fmap, Hk in Hissue.
  injection Hissue as Hrep. unfold issueReported in Hrep.
  destruct (issueResponse w k) as [msg| |[data|msg]]; try done.
  injection Hrep as <-. split; [apply key_issueOfFields|].
  unfold issueOfFields. destruct (fields_parent data) as [pf|]; [|done].
  case_decide; [|done]. by intros p [= <-].
Qed.

End WorkingSet.

(** ** More on the missing children *)

Section MoreMissing.
Context (baseUrl email apiToken : string).

(** X16. When no search throws, the missing-child list is empty, and the
    report has no such section, exactly when every child the tracker lists
    under a Story key of the groups is among the committed tickets. A
    refused search lists nothing, so it cannot be told from a Story all of
    whose children are committed. *)
Theorem nothing_missing_iff_all_reported_children_committed
    (w : World) (jiraIssuesInfo : list Issue) (ticketIds : list string) :
  (∀ k, k ∈ Map_keys (storyMapOf jiraIssuesInfo) →
        rejects (searchResponse w k) = false) →
  ∃ t a,
    aggregate w jiraIssuesInfo ticketIds baseUrl email apiToken
    = (t, Resolved a)
    ∧ (missingChildIssues a = []
       ↔ ∀ k child, k ∈ Map_keys (storyMapOf jiraIssuesInfo) →
           child ∈ childrenReported w k → key child ∈ ticketIds)
    ∧ (missingChildIssues a = [] →
       render baseUrl a
       = "### Related Jira Issues" +:+ nl +:+ nl
         +:+ storySections baseUrl (storyMap a)
         +:+ otherSection baseUrl (orphanIssues a)).
Proof.
  intros Hok. eexists _, _. split; [by apply aggregate_resolved|].
  simpl. split.
  - rewrite join_nil, Forall_fmap, Forall_forall. split.
    + intros Hnil k child Hk Hchild.
      destruct (decide (key child ∈ ticketIds)) as [|Hnot]; [done|].
      assert (child ∈ filter (λ child, key child ∉ ticketIds)
                         (childrenReported w k)) as Hin
        by (by apply list_elem_of_filter).
      rewrite (Hnil k) in Hin by (by rewrite (arrival_perm w _)).
      by apply elem_of_nil in Hin.
    + intros Hall k Hk. simpl. rewrite (arrival_perm w _) in Hk.
      destruct (filter _ (childrenReported w k)) as [|child rest] eqn:Hf;
        [done|].
      assert (child ∈ filter (λ child, key child ∉ ticketIds)
                         (childrenReported w k)) as Hin
        by (rewrite Hf; apply list_elem_of_here).
      apply list_elem_of_filter in Hin as [Hnot Hchild].
      by destruct Hnot; apply (Hall k).
  - intros Hnil. rewrite render_specReport. unfold specReport. simpl.
    rewrite Hnil. simpl. by rewrite append_empty_r.
Qed.

(** X17. The order in which the searches are answered only permutes the
    missing-child list and the warnings: two worlds with the same tracker
    and different orders of arrival give the same groups, the same orphans,
    and missing-child lists with the same members. *)
Theorem arrival_order_only_permutes_the_missing_children
    (w1 w2 : World) (jiraIssuesInfo : list Issue) (ticketIds : list string) :
  (∀ k, searchResponse w1 k = searchResponse w2 k) →
  (∀ k, k ∈ Map_keys (storyMapOf jiraIssuesInfo) →
        rejects (searchResponse w1 k) = false) →
  ∃ t1 a1 t2 a2,
    aggregate w1 jiraIssuesInfo ticketIds baseUrl email apiToken
    = (t1, Resolved a1)
    ∧ aggregate w2 jiraIssuesInfo ticketIds baseUrl email apiToken
      = (t2, Resolved a2)
    ∧ storyMap a1 = storyMap a2
    ∧ orphanIssues a1 = orphanIssues a2
    ∧ missingChildIssues a1 ≡ₚ missingChildIssues a2
    ∧ t1 ≡ₚ t2.
Proof.
  intros Hsame Hok1.
  assert (∀ k, k ∈ Map_keys (storyMapOf jiraIssuesInfo) →
               rejects (searchResponse w2 k) = false) as Hok2.
  { intros k Hk. rewrite <- Hsame. by apply Hok1. }
  eexists _, _, _, _.
  split; [by apply aggregate_resolved|].
  split; [by apply aggregate_resolved|]. simpl.
  assert (arrival w1 (Map_keys (storyMapOf jiraIssuesInfo))
          ≡ₚ arrival w2 (Map_keys (storyMapOf jiraIssuesInfo))) as Hperm
    by (by rewrite !arrival_perm).
  split_and!; [done..| |].
  - rewrite Hperm. f_equiv. apply reflexive_eq, list_fmap_ext. intros _ k _.
    unfold childrenReported. by rewrite Hsame.
  - unfold getStoryChildren. cbn [issued]. f_equiv.
    rewrite Hperm. f_equiv. apply reflexive_eq, list_fmap_ext. intros _ k _.
    unfold searchWarnings. by rewrite Hsame.
Qed.

End MoreMissing.

(** ** Counting the requests *)

Lemma fetchCount_app t1 t2 : fetchCount (t1 ++ t2) = fetchCount t1 + fetchCount t2.
Proof. unfold fetchCount. by rewrite filter_app, length_app. Qed.

Lemma fetchCount_nil : fetchCount [] = 0.
Proof. done. Qed.

Lemma fetchCount_cons e t :
  fetchCount (e :: t) = (if isFetch e then 1 else 0) + fetchCount t.
Proof.
  unfold fetchCount. rewrite filter_cons.
  destruct (isFetch e); by case_decide.
Qed.

Lemma fetchCount_quiet t : Forall (λ e, ¬ isFetch e) t → fetchCount t = 0.
Proof.
  induction 1 as [|e t He _ IH]; [done|].
  rewrite fetchCount_cons, IH. by destruct (isFetch e).
Qed.

Lemma fetchCount_requests {K} (f : K → string) (keys : list K) :
  fetchCount (mjoin ((λ k, [Fetch (f k)]) <$> keys)) = length keys.
Proof.
  induction keys as [|k keys IH]; csimpl; [done|].
  by rewrite fetchCount_cons, IH.
Qed.

Lemma bind_trace_resolved {A B} (t : list Event) (a : A) (f : A → M B) :
  (bind (t, Resolved a) f).1 = t ++ (f a).1.
Proof. by rewrite bind_resolved. Qed.

Lemma fetchCount_settleAll {A} arrival keys (task : string → Async A)
    (url : string → string) :
  (∀ k, issued (task k) = [Fetch (url k)]) →
  (∀ k, Forall (λ e, ¬ isFetch e) (settled (task k)).1) →
  fetchCount (settleAll arrival keys task).1 = length keys.
Proof.
  intros Hissued Hquiet. unfold settleAll.
  rewrite bind_trace_resolved, fetchCount_app.
  rewrite (list_fmap_ext (λ k, issued (task k)) (λ k, [Fetch (url k)]) keys)
    by (intros; apply Hissued).
  rewrite fetchCount_requests, fetchCount_quiet; [lia|].
  apply sequenceM_trace, Forall_fmap, Forall_forall. intros k _. apply Hquiet.
Qed.

Lemma bind_quiet {A B} (m : M A) (f : A → M B) :
  (∀ a, (f a).1 = []) → (bind m f).1 = m.1.
Proof.
  intros Hf. destruct m as [t [a|msg]]; [|done].
  rewrite bind_trace_resolved, Hf. apply app_nil_r.
Qed.

Lemma quiet_lookup w baseUrl email apiToken k :
  Forall (λ e, ¬ isFetch e)
    (settled (getJiraIssueInfo w k baseUrl email apiToken)).1.
Proof.
  unfold getJiraIssueInfo. simpl.
  destruct (issueResponse w k) as [m| |[data|m]]; simpl;
    repeat constructor; by intros [].
Qed.

Lemma quiet_search w committedIssueKeys baseUrl email apiToken k :
  Forall (λ e, ¬ isFetch e)
    (settled (missingChildrenOf w committedIssueKeys baseUrl email apiToken
                k)).1.
Proof.
  unfold missingChildrenOf, getStoryChildren. simpl.
  destruct (searchResponse w k) as [m| |[issues|m]]; simpl;
    repeat constructor; by intros [].
Qed.

Lemma fetchCount_lookups w baseUrl email apiToken ticketIds :
  fetchCount
    (Promise_all (arrival w) ticketIds
       (λ pattern, getJiraIssueInfo w pattern baseUrl email apiToken)).1
  = length ticketIds.
Proof.
  unfold Promise_all. rewrite bind_quiet by done.
  apply (fetchCount_settleAll _ _ _
           (λ k, baseUrl +:+ "/rest/api/3/issue/" +:+ k)); [done|].
  intros k. apply quiet_lookup.
Qed.

Lemma fetchCount_aggregate w jiraIssuesInfo ticketIds baseUrl email apiToken :
  fetchCount (aggregate w jiraIssuesInfo ticketIds baseUrl email apiToken).1
  = length (Map_keys (storyMapOf jiraIssuesInfo)).
Proof.
  unfold aggregate, storyMapOf.
  destruct (groupIssues jiraIssuesInfo) as [sm orph].
  rewrite bind_quiet by done.
  apply (fetchCount_settleAll _ _ _
           (λ k, baseUrl +:+ "/rest/api/3/search?jql=parent=" +:+ k)); [done|].
  intros k. apply quiet_search.
Qed.

Lemma length_new_Set (xs : list string) : length (new_Set xs) ≤ length xs.
Proof.
  unfold new_Set.
  assert (∀ acc, length (fold_left Set_add xs acc) ≤ length acc + length xs)
    as Hgen; [|by apply (Hgen [])].
  induction xs as [|x xs IH]; intros acc; simpl; [lia|].
  etrans; [apply IH|]. unfold Set_add. destruct (Set_has acc x); [lia|].
  rewrite length_app. simpl. lia.
Qed.

Lemma length_omap_le {A B} (f : A → option B) (l : list A) :
  length (omap f l) ≤ length l.
Proof.
  induction l as [|x l IH]; csimpl; [done|]. destruct (f x); simpl; lia.
Qed.

Lemma storyKeys_le (jiraIssuesInfo : list Issue) :
  length (Map_keys (storyMapOf jiraIssuesInfo)) ≤ length jiraIssuesInfo.
Proof.
  unfold storyMapOf. rewrite groupIssues_keys.
  etrans; [apply length_new_Set|]. apply length_omap_le.
Qed.

Section Requests.
Context {engine : RegexEngine}.

(** X18. Whatever the tracker answers, a run sends it at most two requests
    per extracted ticket: one lookup for each, and one search for each
    distinct Story parent found. *)
Theorem run_sends_at_most_two_requests_per_ticket
    w prNumber commits ticketIds :
  Started w prNumber commits →
  ticketIdsOf (jiraTicketPatternOf w) commits = Resolved ticketIds →
  fetchCount (run w) ≤ 2 * length ticketIds.
Proof.
  intros Hstarted Hids.
  rewrite run_caught, (runTry_started _ _ _ Hstarted), Hids.
  rewrite caught_bind. unfold emit at 1. cbn [app].
  rewrite caught_bind. unfold liftOutcome at 1. cbn [app].
  rewrite fetchCount_cons. cbn [isFetch].
  case_bool_decide as Hlen;
    [unfold emit, caught; rewrite fetchCount_cons, fetchCount_nil; simpl; lia|].
  rewrite caught_bind.
  pose proof (fetchCount_lookups w (getInput w "jira-base-url")
                (getInput w "jira-email") (getInput w "jira-api-token")
                ticketIds) as Hlookups.
  destruct (Promise_all _ _ _) as [t [jiraIssuesInfo|msg]] eqn:Hall;
    simpl in Hlookups.
  - pose proof (lookups_inv _ _ _ _ _ _ _ Hall) as Hlook.
    rewrite (lookups_resolved _ _ _ _ _ Hlook) in Hall.
    injection Hall as _ <-. rewrite filter_Boolean_reported.
    unfold generateStructuredOutput.
    pose proof (fetchCount_aggregate w (omap (issueReported w) ticketIds)
                  ticketIds (getInput w "jira-base-url")
                  (getInput w "jira-email") (getInput w "jira-api-token"))
      as Hsearches.
    pose proof (storyKeys_le (omap (issueReported w) ticketIds)) as Hkeys.
    pose proof (length_omap_le (issueReported w) ticketIds) as Hfound.
    destruct (aggregate _ _ _ _ _ _) as [t' [a|msg]]; simpl in Hsearches.
    + rewrite bind_resolved. cbn [ret fst snd]. rewrite app_nil_r.
      rewrite caught_bind, caught_bind. unfold emit, liftOutcome.
      destruct (updateResult w) as [[]|msg]; simpl;
        rewrite !fetchCount_app, !fetchCount_cons, ?fetchCount_nil; simpl;
        lia.
    + rewrite bind_rejected, caught_bind.
      rewrite !fetchCount_app, fetchCount_cons, fetchCount_nil. simpl. lia.
  - rewrite fetchCount_app, fetchCount_cons, fetchCount_nil. simpl. lia.
Qed.

End Requests.

(** ** The further properties at concrete worlds *)

Ltac member := repeat first [apply list_elem_of_here | apply list_elem_of_further].


Lemma run_updates_once_after_the_tracker_witness :
  ∃ body,
    UpdatePR 7 body ∈ run Sample.degraded
    ∧ pull_request Sample.degraded = Some (Some 7) ∧ 7 ≠ 0
    ∧ ∃ t after,
        run Sample.degraded = ListCommits 7 :: t ++ UpdatePR 7 body :: after
        ∧ Forall trackerEvent t
        ∧ (after = [] ∨ ∃ msg, after = [SetFailed msg]).
Proof.
  eexists.
  eassert (UpdatePR 7 _ ∈ run Sample.degraded) as Hin by (vm_compute; member).
  exact (conj Hin (run_updates_once_after_the_tracker Sample.degraded _ _ Hin)).
Defined.

Lemma run_notice_stands_alone_witness :
  Notice "No Jira ticket IDs found in commit messages" ∈ run Sample.noTickets
  ∧ ∃ prNumber,
      run Sample.noTickets
      = [ListCommits prNumber;
         Notice "No Jira ticket IDs found in commit messages"].
Proof.
  assert (Notice "No Jira ticket IDs found in commit messages"
          ∈ run Sample.noTickets) as Hin by (vm_compute; member).
  exact (conj Hin (run_notice_stands_alone Sample.noTickets _ Hin)).
Defined.


Lemma run_outside_a_pull_request_witness :
  firstMissingInput Scenario.pushEvent = None
  ∧ (∀ n, pull_request Scenario.pushEvent ≠ Some (Some (S n)))
  ∧ run Scenario.pushEvent
    = [SetFailed
         match pull_request Scenario.pushEvent with
         | None => "This action can only be run on pull request events"
         | Some _ => "Could not get pull request number from context"
         end].
Proof.
  split; [vm_compute; reflexivity|]. split; [intros n; discriminate|].
  apply (run_outside_a_pull_request Scenario.pushEvent);
    [vm_compute; reflexivity|intros n; discriminate].
Defined.

Lemma run_fails_when_commits_cannot_be_listed_witness :
  firstMissingInput Scenario.noAccess = None
  ∧ pull_request Scenario.noAccess = Some (Some 7) ∧ 7 ≠ 0
  ∧ listCommits Scenario.noAccess 7
    = Rejected "Resource not accessible by integration"
  ∧ run Scenario.noAccess
    = [ListCommits 7; SetFailed "Resource not accessible by integration"].
Proof.
  split; [vm_compute; reflexivity|]. split; [reflexivity|].
  split; [discriminate|]. split; [reflexivity|].
  apply (run_fails_when_commits_cannot_be_listed Scenario.noAccess 7);
    [vm_compute; reflexivity|reflexivity|discriminate|reflexivity].
Defined.



Lemma run_completes_with_one_update_witness :
  Started Scenario.readOnly 7 Sample.commits
  ∧ ticketIdsOf (jiraTicketPatternOf Scenario.readOnly) Sample.commits
    = Resolved Sample.ticketIds
  ∧ Sample.ticketIds ≠ []
  ∧ (∀ k, k ∈ Sample.ticketIds →
          rejects (issueResponse Scenario.readOnly k) = false)
  ∧ (∀ k, k ∈ Map_keys (storyMapOf
                          (omap (issueReported Scenario.readOnly)
                             Sample.ticketIds)) →
          rejects (searchResponse Scenario.readOnly k) = false)
  ∧ let w := Scenario.readOnly in
    let baseUrl := getInput w "jira-base-url" in
    let fetched := omap (issueReported w) Sample.ticketIds in
    let storyKeys := Map_keys (storyMapOf fetched) in
    run w
    = ListCommits 7
      :: ((λ k, Fetch (baseUrl +:+ "/rest/api/3/issue/" +:+ k))
            <$> Sample.ticketIds)
      ++ mjoin (lookupWarnings w <$> arrival w Sample.ticketIds)
      ++ ((λ k, Fetch (baseUrl +:+ "/rest/api/3/search?jql=parent=" +:+ k))
            <$> storyKeys)
      ++ mjoin (searchWarnings w <$> arrival w storyKeys)
      ++ UpdatePR 7
           (render baseUrl
              {| storyMap := storyMapOf fetched;
                 orphanIssues := orphanIssuesOf fetched;
                 missingChildIssues :=
                   mjoin ((λ k, filter (λ child, key child ∉ Sample.ticketIds)
                                  (childrenReported w k))
                            <$> arrival w storyKeys) |})
         :: match updateResult w with
            | Resolved _ => []
            | Rejected msg => [SetFailed msg]
            end.
Proof.
  assert (∀ k, k ∈ Sample.ticketIds →
               rejects (issueResponse Scenario.readOnly k) = false) as Hlook.
  { intros k Hk. unfold Sample.ticketIds in Hk. each_member Hk. }
  assert (∀ k, k ∈ Map_keys (storyMapOf
                               (omap (issueReported Scenario.readOnly)
                                  Sample.ticketIds)) →
               rejects (searchResponse Scenario.readOnly k) = false)
    as Hsearch.
  { intros k Hk. vm_compute in Hk. each_member Hk. }
  split; [started|]. split; [vm_compute; reflexivity|].
  split; [discriminate|]. split; [exact Hlook|]. split; [exact Hsearch|].
  apply (@run_completes_with_one_update Fragment.engine Scenario.readOnly 7
           Sample.commits Sample.ticketIds);
    [started|vm_compute; reflexivity|discriminate|exact Hlook|exact Hsearch].
Defined.

Lemma extraction_ignores_repeated_messages_witness :
  (∀ message, message ∈ ["RC-2 also RC-1"; "RC-1 fix"] →
              message ∈ Sample.commits)
  ∧ ticketIdsOf "RC-[^ ]*" (Sample.commits ++ ["RC-2 also RC-1"; "RC-1 fix"])
    = ticketIdsOf "RC-[^ ]*" Sample.commits.
Proof.
  assert (∀ message, message ∈ ["RC-2 also RC-1"; "RC-1 fix"] →
                     message ∈ Sample.commits) as Hknown.
  { intros m Hm. unfold Sample.commits.
    repeat (apply elem_of_cons in Hm as [->|Hm]; [member|]).
    by apply elem_of_nil in Hm. }
  exact (conj Hknown
           (@extraction_ignores_repeated_messages Fragment.engine "RC-[^ ]*"
              Sample.commits ["RC-2 also RC-1"; "RC-1 fix"] Hknown)).
Defined.

Lemma no_ticket_iff_no_match_witness :
  ∃ regex,
    new_RegExp "RC-[^ ]*" "g" = Resolved regex
    ∧ (ticketIdsOf "RC-[^ ]*" ["Initial commit"; "Bump version"] = Resolved []
       ↔ ∀ message, message ∈ ["Initial commit"; "Bump version"] →
           String_match message regex = None
           ∨ String_match message regex = Some []).
Proof.
  eexists. split; [vm_compute; reflexivity|].
  apply (@no_ticket_iff_no_match Fragment.engine).
  vm_compute; reflexivity.
Defined.

Lemma each_ticket_is_reported_at_most_once_witness :
  NoDup Sample.ticketIds
  ∧ let fetched := omap (issueReported Sample.degraded) Sample.ticketIds in
    NoDup (key <$> (orphanIssuesOf fetched
                    ++ allChildren (storyMapOf fetched)))
    ∧ ∀ issue,
        issue ∈ orphanIssuesOf fetched ++ allChildren (storyMapOf fetched) →
        key issue ∈ Sample.ticketIds
        ∧ issueReported Sample.degraded (key issue) = Some issue.
Proof.
  assert (NoDup Sample.ticketIds) as Hnd
    by (apply (bool_decide_unpack _); vm_compute; exact I).
  exact (conj Hnd
           (each_ticket_is_reported_at_most_once Sample.degraded
              Sample.ticketIds Hnd)).
Defined.

Lemma lookups_resolve_in_ticket_order_witness :
  ∃ t jiraIssuesInfo,
    Promise_all (arrival Sample.degraded) Sample.ticketIds
      (λ pattern, getJiraIssueInfo Sample.degraded pattern
                    "https://jira.example" "dev@example.com" "secret")
    = (t, Resolved jiraIssuesInfo)
    ∧ jiraIssuesInfo = issueReported Sample.degraded <$> Sample.ticketIds
    ∧ length jiraIssuesInfo = length Sample.ticketIds
    ∧ ∀ i k issue,
        Sample.ticketIds !! i = Some k →
        jiraIssuesInfo !! i = Some (Some issue) →
        key issue = k
        ∧ ∀ p, parent issue = Some p → story_type p = "Story".
Proof.
  eexists _, _. split; [vm_compute; reflexivity|].
  eapply (lookups_resolve_in_ticket_order Sample.degraded
            "https://jira.example" "dev@example.com" "secret").
  vm_compute; reflexivity.
Defined.

Lemma nothing_missing_iff_all_reported_children_committed_witness :
  (∀ k, k ∈ Map_keys (storyMapOf Sample.fetched) →
        rejects (searchResponse Sample.searchRefused k) = false)
  ∧ ∃ t a,
      aggregate Sample.searchRefused Sample.fetched Sample.ticketIds
        "https://jira.example" "dev@example.com" "secret" = (t, Resolved a)
      ∧ (missingChildIssues a = []
         ↔ ∀ k child, k ∈ Map_keys (storyMapOf Sample.fetched) →
             child ∈ childrenReported Sample.searchRefused k →
             key child ∈ Sample.ticketIds)
      ∧ (missingChildIssues a = [] →
         render "https://jira.example" a
         = "### Related Jira Issues" +:+ nl +:+ nl
           +:+ storySections "https://jira.example" (storyMap a)
           +:+ otherSection "https://jira.example" (orphanIssues a)).
Proof.
  assert (∀ k, k ∈ Map_keys (storyMapOf Sample.fetched) →
               rejects (searchResponse Sample.searchRefused k) = false)
    as Hok.
  { intros k Hk. vm_compute in Hk. each_member Hk. }
  exact (conj Hok
           (nothing_missing_iff_all_reported_children_committed
              "https://jira.example" "dev@example.com" "secret"
              Sample.searchRefused Sample.fetched Sample.ticketIds Hok)).
Defined.

Lemma arrival_order_only_permutes_the_missing_children_witness :
  (∀ k, searchResponse Sample.degraded k = searchResponse Scenario.inOrder k)
  ∧ (∀ k, k ∈ Map_keys (storyMapOf Scenario.interleaved) →
          rejects (searchResponse Sample.degraded k) = false)
  ∧ ∃ t1 a1 t2 a2,
      aggregate Sample.degraded Scenario.interleaved Sample.ticketIds
        "https://jira.example" "dev@example.com" "secret" = (t1, Resolved a1)
      ∧ aggregate Scenario.inOrder Scenario.interleaved Sample.ticketIds
          "https://jira.example" "dev@example.com" "secret"
        = (t2, Resolved a2)
      ∧ storyMap a1 = storyMap a2
      ∧ orphanIssues a1 = orphanIssues a2
      ∧ missingChildIssues a1 ≡ₚ missingChildIssues a2
      ∧ t1 ≡ₚ t2.
Proof.
  assert (∀ k, searchResponse Sample.degraded k
               = searchResponse Scenario.inOrder k) as Hsame
    by (intros k; reflexivity).
  assert (∀ k, k ∈ Map_keys (storyMapOf Scenario.interleaved) →
               rejects (searchResponse Sample.degraded k) = false) as Hok.
  { intros k Hk. vm_compute in Hk. each_member Hk. }
  exact (conj Hsame (conj Hok
           (arrival_order_only_permutes_the_missing_children
              "https://jira.example" "dev@example.com" "secret"
              Sample.degraded Scenario.inOrder Scenario.interleaved
              Sample.ticketIds Hsame Hok))).
Defined.

Lemma run_sends_at_most_two_requests_per_ticket_witness :
  Started Sample.degraded 7 Sample.commits
  ∧ ticketIdsOf (jiraTicketPatternOf Sample.degraded) Sample.commits
    = Resolved Sample.ticketIds
  ∧ fetchCount (run Sample.degraded) ≤ 2 * length Sample.ticketIds.
Proof.
  split; [started|]. split; [vm_compute; reflexivity|].
  apply (@run_sends_at_most_two_requests_per_ticket Fragment.engine
           Sample.degraded 7 Sample.commits Sample.ticketIds);
    [started|vm_compute; reflexivity].
Defined.

(** The groups of [Scenario.interleaved]: RC-10 before RC-30, and the title
    of RC-10 is the one that came with its first child. *)
Example groups_of_interleaved :
  (λ entry, (entry.1, story_title (story entry.2), key <$> children entry.2))
    <$> storyMapOf Scenario.interleaved
  = [("RC-10", "Login", ["RC-1"; "RC-8"]); ("RC-30", "Reports", ["RC-7"])].
Proof. vm_compute; reflexivity. Qed.
